(** * Bit-level puzzles of [bits.c], embedded over [Z]

    A C [int] is a mathematical integer in [[-2^31, 2^31)], an [unsigned]
    one in [[0, 2^32)].  The bitwise operators of C are the ones of [Z]
    (which reads a negative number as an infinite two's-complement word);
    the operators that can leave the range ([+], [<<]) wrap around
    explicitly, as the compiled code does on a two's-complement machine. *)

From Stdlib Require Import ZArith Lia Bool Btauto List QArith Qround Qpower Qabs.
Import ListNotations.
Local Open Scope Z_scope.

(** ** Machine integers *)

Module Int32.

Definition modulus : Z := 2 ^ 32.
Definition half_modulus : Z := 2 ^ 31.
Definition min_signed : Z := - 2 ^ 31.
Definition max_signed : Z := 2 ^ 31 - 1.
Definition max_unsigned : Z := 2 ^ 32 - 1.

(** Range predicates for the two C types. *)
Definition is_int (x : Z) : Prop := min_signed <= x <= max_signed.
Definition is_unsigned (x : Z) : Prop := 0 <= x <= max_unsigned.

Definition is_intb (x : Z) : bool := (min_signed <=? x) && (x <=? max_signed).

(** Conversion to [unsigned]: reduction modulo [2^32]. *)
Definition unsigned (x : Z) : Z := x mod modulus.

(** Conversion to [int]: the representative of [x] modulo [2^32] lying in
    the signed range. *)
Definition signed (x : Z) : Z :=
  let u := x mod modulus in
  if u <? half_modulus then u else u - modulus.

(** [~x], [x & y], [x | y], [x ^ y]. *)
Definition not (x : Z) : Z := Z.lnot x.
Definition and (x y : Z) : Z := Z.land x y.
Definition or (x y : Z) : Z := Z.lor x y.
Definition xor (x y : Z) : Z := Z.lxor x y.

(** [x + y] and [x - y] on [int], wrapping. *)
Definition add (x y : Z) : Z := signed (x + y).
Definition sub (x y : Z) : Z := signed (x - y).

(** [x << n] on [int], bits shifted out at the top are lost. *)
Definition shl (x n : Z) : Z := signed (Z.shiftl x n).

(** [x >> n] on [int]: arithmetic shift, the sign bit is replicated. *)
Definition shr (x n : Z) : Z := Z.shiftr x n.

(** [x >> n] on [unsigned]: logical shift, zeros enter at the top. *)
Definition shru (x n : Z) : Z := Z.shiftr x n.

(** [!x]. *)
Definition lognot (x : Z) : Z := if x =? 0 then 1 else 0.

End Int32.

(** ** The functions of [bits.c] *)

(** [bitXor]: locals [and], [nor]. *)
Definition bitXor (x y : Z) : Z :=
  let and := Int32.not (Int32.and x y) in
  let nor := Int32.and (Int32.not x) (Int32.not y) in
  Int32.and and (Int32.not nor).

(** [allEvenBits]: [x] is folded onto itself four times. *)
Definition allEvenBits (x : Z) : Z :=
  let x := Int32.and x (Int32.shr x 16) in
  let x := Int32.and x (Int32.shr x 8) in
  let x := Int32.and x (Int32.shr x 4) in
  let x := Int32.and x (Int32.shr x 2) in
  Int32.and x 1.

(** [logicalShift]. *)
Definition logicalShift (x n : Z) : Z :=
  let bitmask := Int32.shl (Int32.shr (Int32.and x (Int32.shl 1 31)) n) 1 in
  Int32.xor (Int32.shr x n) bitmask.

(** [logicalNeg]. *)
Definition logicalNeg (x : Z) : Z :=
  Int32.add (Int32.shr (Int32.or x (Int32.add (Int32.not x) 1)) 31) 1.

(** [tmax]. *)
Definition tmax : Z := Int32.not (Int32.shl 1 31).

(** [twosBits]. *)
Definition twosBits (x n : Z) : Z :=
  let shift := Int32.add (Int32.add (Int32.not n) 1) 32 in
  Int32.lognot (Int32.xor x (Int32.shr (Int32.shl x shift) shift)).

(** The [return] statements of [floatFloat2Int], in source order. *)
Inductive exit_point : Set :=
| ExitZero        (* if (uf == 0) return 0x0 *)
| ExitSpecial     (* if (exp == 0xFF) return 0x80000000u *)
| ExitDenorm      (* if (exp == 0x0) return 0 *)
| ExitSmall       (* if (e < 0) return 0 *)
| ExitLarge       (* if (e >= 31) return 0x80000000u *)
| ExitNegative    (* if (negSign) return ~result + 1 *)
| ExitOverflow    (* if (result >> 31) return 0x80000000 *)
| ExitResult.     (* else return result *)

(** The significand after [if (e > 23) result <<= (e - 23); else result >>= (23 - e);]. *)
Definition align (result e : Z) : Z :=
  if e >? 23 then Int32.shl result (Int32.sub e 23)
  else Int32.shr result (Int32.sub 23 e).

(** [floatFloat2Int], returning the [return] statement taken together
    with the value returned (converted to [int], the return type). *)
Definition floatFloat2Int_exit (uf : Z) : exit_point * Z :=
  if uf =? 0 then (ExitZero, 0) else
  let negSign := Int32.signed (Int32.and uf (Int32.unsigned (Int32.shl 1 31))) in
  let exp := Int32.signed (Int32.and (Int32.shru uf 23) 0xFF) in
  let frac := Int32.signed (Int32.and uf 0x7FFFFF) in
  if exp =? 0xFF then (ExitSpecial, Int32.signed 0x80000000) else
  if exp =? 0x0 then (ExitDenorm, 0) else
  let e := Int32.sub exp 127 in
  let result := Int32.or frac 0x800000 in
  if e <? 0 then (ExitSmall, 0) else
  if e >=? 31 then (ExitLarge, Int32.signed 0x80000000) else
  let result := align result e in
  if negb (negSign =? 0) then (ExitNegative, Int32.add (Int32.not result) 1) else
  if negb (Int32.shr result 31 =? 0) then (ExitOverflow, Int32.signed 0x80000000)
  else (ExitResult, result).

Definition floatFloat2Int (uf : Z) : Z := snd (floatFloat2Int_exit uf).

(** ** What the functions are meant to compute *)

(** Sign extension of the low [n] bits of [x] (bit [n - 1] is the sign). *)
Definition sign_extend (n x : Z) : Z :=
  let low := x mod 2 ^ n in
  if Z.testbit low (n - 1) then low - 2 ^ n else low.

(** Even bit positions of a 32-bit word. *)
Definition even_positions : list Z :=
  [0; 2; 4; 6; 8; 10; 12; 14; 16; 18; 20; 22; 24; 26; 28; 30].

Definition even_bits_set (x : Z) : bool :=
  forallb (Z.testbit x) even_positions.

(** Single-precision bit patterns: sign (bit 31), biased exponent
    (bits 30-23), fraction (bits 22-0), and the rational they encode. *)
Module IEEE754.

Definition sign_bit (uf : Z) : bool := Z.testbit uf 31.
Definition exponent_field (uf : Z) : Z := (uf / 2 ^ 23) mod 2 ^ 8.
Definition fraction_field (uf : Z) : Z := uf mod 2 ^ 23.

Definition sign_factor (uf : Z) : Z := if sign_bit uf then -1 else 1.

(** The value encoded; [None] for the infinities and NaN. *)
Definition value (uf : Z) : option Q :=
  let s := inject_Z (sign_factor uf) in
  let f := Qmake (fraction_field uf) (2 ^ 23) in
  let E := exponent_field uf in
  if E =? 255 then None
  else if E =? 0 then Some (s * f * 2 ^ (-126))%Q
  else Some (s * (1 + f) * 2 ^ (E - 127))%Q.

(** The magnitude encoded, for finite patterns. *)
Definition magnitude (uf : Z) : option Q :=
  option_map Qabs (value uf).

(** Rounding toward zero. *)
Definition truncate (q : Q) : Z :=
  if Qle_bool 0 q then Qfloor q else Qceiling q.

(** Conversion to [int] as the claim describes it: truncation, and the
    pattern [0x80000000] (read as an [int]) when there is no value or the
    truncated value is not an [int]. *)
Definition to_int (uf : Z) : Z :=
  match value uf with
  | None => Int32.signed 0x80000000
  | Some q =>
      let t := truncate q in
      if Int32.is_intb t then t else Int32.signed 0x80000000
  end.

End IEEE754.

(** ** Auxiliary forms used in the proofs *)

(** The branches of [floatFloat2Int] in terms of the fields, with the
    machine arithmetic resolved. *)
Definition branches (uf : Z) : exit_point * Z :=
  let E := IEEE754.exponent_field uf in
  let m := IEEE754.fraction_field uf + 2 ^ 23 in
  if uf =? 0 then (ExitZero, 0) else
  if E =? 255 then (ExitSpecial, - 2 ^ 31) else
  if E =? 0 then (ExitDenorm, 0) else
  if E <? 127 then (ExitSmall, 0) else
  if 158 <=? E then (ExitLarge, - 2 ^ 31) else
  let r := if 150 <? E then m * 2 ^ (E - 150) else m / 2 ^ (150 - E) in
  if IEEE754.sign_bit uf then (ExitNegative, - r) else (ExitResult, r).

(** Significand and exponent of two: the value is
    [sign_factor * significand * 2 ^ scale]. *)
Definition significand (uf : Z) : Z :=
  if IEEE754.exponent_field uf =? 0 then IEEE754.fraction_field uf
  else IEEE754.fraction_field uf + 2 ^ 23.

Definition scale (uf : Z) : Z :=
  if IEEE754.exponent_field uf =? 0 then -149
  else IEEE754.exponent_field uf - 150.

(** Truncating [s * m * 2 ^ k] for a sign [s] and a magnitude [m]. *)
Definition truncated_magnitude (uf : Z) : Z :=
  if 0 <=? scale uf then significand uf * 2 ^ scale uf
  else significand uf / 2 ^ (- scale uf).

Example bitXor_4_5 : bitXor 4 5 = 1.
Proof. reflexivity. Qed.

Example to_int_examples :
  IEEE754.to_int 0x3F800000 = 1 /\ IEEE754.to_int 0xBFC00000 = -1 /\
  IEEE754.to_int 0x7F800000 = -2147483648 /\ IEEE754.to_int 0x4F000000 = -2147483648 /\
  IEEE754.to_int 0xC0490FDB = -3 /\ IEEE754.to_int 0x4EFFFFFF = 2147483520.
Proof. repeat split; vm_compute; reflexivity. Qed.

(** ** Bits of machine integers *)

(** Range side conditions on concrete or linearly bounded integers. *)
Ltac in_range :=
  unfold Int32.is_int, Int32.is_unsigned, Int32.min_signed, Int32.max_signed,
    Int32.max_unsigned in *;
  lia.

Section Bits.

Lemma testbit_above_nonneg (n x i : Z) :
  0 <= x < 2 ^ n -> n <= i -> Z.testbit x i = false.
Proof.
  intros Hx Hi.
  rewrite <- (Z.mod_small x (2 ^ n)) by lia.
  apply Z.mod_pow2_bits_high.
  destruct (Z.lt_ge_cases n 0) as [Hn | Hn]; [|lia].
  rewrite Z.pow_neg_r in Hx by assumption. lia.
Qed.

Lemma testbit_above_neg (n x i : Z) :
  - 2 ^ n <= x < 0 -> n <= i -> Z.testbit x i = true.
Proof.
  intros Hx Hi.
  destruct (Z.lt_ge_cases n 0) as [Hn | Hn].
  { rewrite Z.pow_neg_r in Hx by assumption. lia. }
  replace x with (- (- x)) by lia.
  rewrite Z.bits_opp by lia.
  rewrite (testbit_above_nonneg n); [reflexivity | lia | lia].
Qed.

(** The top bit of an [n + 1]-bit number tells which half it lies in. *)
Lemma testbit_top (n x : Z) :
  0 <= n -> 0 <= x < 2 ^ (n + 1) -> Z.testbit x n = (2 ^ n <=? x).
Proof.
  intros Hn Hx. rewrite Z.add_1_r, Z.pow_succ_r in Hx by assumption.
  destruct (Z.leb_spec (2 ^ n) x) as [H | H].
  - apply Z.testbit_true; [lia|].
    replace (x / 2 ^ n) with 1; [reflexivity|].
    apply Z.div_unique with (r := x - 2 ^ n); lia.
  - apply (testbit_above_nonneg n); lia.
Qed.

Lemma testbit_min_signed (i : Z) :
  0 <= i -> Z.testbit (- 2 ^ 31) i = (31 <=? i).
Proof.
  intros Hi. change (- 2 ^ 31) with (Z.lnot (Z.ones 31)).
  rewrite Z.lnot_spec, Z.testbit_ones_nonneg by lia.
  destruct (Z.ltb_spec i 31), (Z.leb_spec 31 i); reflexivity || lia.
Qed.

Lemma sign_extend_range (n x : Z) :
  0 < n -> - 2 ^ (n - 1) <= sign_extend n x < 2 ^ (n - 1).
Proof.
  intros Hn. unfold sign_extend.
  assert (Hp : 2 ^ n = 2 * 2 ^ (n - 1)).
  { rewrite <- Z.pow_succ_r by lia. f_equal. lia. }
  pose proof (Z.mod_pos_bound x (2 ^ n) ltac:(lia)) as Hb.
  rewrite (testbit_top (n - 1)) by (replace (n - 1 + 1) with n; lia).
  destruct (Z.leb_spec (2 ^ (n - 1)) (x mod 2 ^ n)); lia.
Qed.

Lemma sign_extend_eqm (n x : Z) :
  0 < n -> sign_extend n x mod 2 ^ n = x mod 2 ^ n.
Proof.
  intros Hn. unfold sign_extend.
  assert (0 < 2 ^ n) by lia.
  destruct (Z.testbit (x mod 2 ^ n) (n - 1)).
  - rewrite <- (Z.mul_1_l (2 ^ n)) at 2.
    rewrite <- Z.add_opp_r, <- Z.mul_opp_l, Z.mod_add by lia.
    apply Z.mod_mod. lia.
  - apply Z.mod_mod. lia.
Qed.

(** Sign extension keeps the low [n] bits and replicates bit [n - 1]. *)
Lemma sign_extend_testbit (n x i : Z) :
  0 < n -> 0 <= i ->
  Z.testbit (sign_extend n x) i = Z.testbit x (Z.min i (n - 1)).
Proof.
  intros Hn Hi.
  assert (Hlow : forall j, 0 <= j < n ->
            Z.testbit (sign_extend n x) j = Z.testbit x j).
  { intros j Hj.
    rewrite <- (Z.mod_pow2_bits_low (sign_extend n x) n j) by lia.
    rewrite sign_extend_eqm by assumption. apply Z.mod_pow2_bits_low. lia. }
  destruct (Z.le_gt_cases i (n - 1)) as [H | H].
  - rewrite Z.min_l by lia. apply Hlow. lia.
  - rewrite Z.min_r by lia.
    rewrite <- (Hlow (n - 1)) by lia.
    pose proof (sign_extend_range n x Hn) as Hr.
    destruct (Z.lt_ge_cases (sign_extend n x) 0).
    + rewrite !(testbit_above_neg (n - 1)) by lia. reflexivity.
    + rewrite !(testbit_above_nonneg (n - 1)) by lia. reflexivity.
Qed.

(** A number is its own [n]-bit sign extension exactly when it lies in
    the [n]-bit two's-complement range. *)
Lemma sign_extend_fixpoint (n x : Z) :
  0 < n -> (sign_extend n x = x <-> - 2 ^ (n - 1) <= x < 2 ^ (n - 1)).
Proof.
  intros Hn. split.
  - intros <-. apply sign_extend_range. assumption.
  - intros Hx. unfold sign_extend.
    assert (Hp : 2 ^ n = 2 * 2 ^ (n - 1)).
    { rewrite <- Z.pow_succ_r by lia. f_equal. lia. }
    assert (0 < 2 ^ (n - 1)) by lia.
    rewrite (testbit_top (n - 1))
      by (replace (n - 1 + 1) with n by lia;
          try apply Z.mod_pos_bound; lia).
    destruct (Z.lt_ge_cases x 0).
    + replace (x mod 2 ^ n) with (x + 2 ^ n)
        by (apply Z.mod_unique with (q := -1); lia).
      destruct (Z.leb_spec (2 ^ (n - 1)) (x + 2 ^ n)); lia.
    + rewrite Z.mod_small by lia.
      destruct (Z.leb_spec (2 ^ (n - 1)) x); lia.
Qed.

(** Conversion to [int] is sign extension from 32 bits. *)
Lemma signed_sign_extend (z : Z) : Int32.signed z = sign_extend 32 z.
Proof.
  unfold Int32.signed, sign_extend, Int32.modulus, Int32.half_modulus.
  rewrite (testbit_top 31) by (try apply Z.mod_pos_bound; lia).
  change (32 - 1) with 31.
  destruct (Z.ltb_spec (z mod 2 ^ 32) (2 ^ 31)),
    (Z.leb_spec (2 ^ 31) (z mod 2 ^ 32)); reflexivity || lia.
Qed.

Lemma signed_range (z : Z) : Int32.is_int (Int32.signed z).
Proof.
  rewrite signed_sign_extend.
  pose proof (sign_extend_range 32 z ltac:(lia)) as H.
  unfold Int32.is_int, Int32.min_signed, Int32.max_signed.
  change (32 - 1) with 31 in H. lia.
Qed.

Lemma signed_id (x : Z) : Int32.is_int x -> Int32.signed x = x.
Proof.
  intros Hx. rewrite signed_sign_extend. apply sign_extend_fixpoint; [lia|].
  unfold Int32.is_int, Int32.min_signed, Int32.max_signed in Hx.
  change (32 - 1) with 31. lia.
Qed.

Lemma signed_testbit (z i : Z) :
  0 <= i -> Z.testbit (Int32.signed z) i = Z.testbit z (Z.min i 31).
Proof.
  intros Hi. rewrite signed_sign_extend.
  apply (sign_extend_testbit 32); lia.
Qed.

(** Above bit 31 a machine integer only repeats its sign. *)
Lemma is_int_testbit (x i : Z) :
  Int32.is_int x -> 31 <= i -> Z.testbit x i = (x <? 0).
Proof.
  unfold Int32.is_int, Int32.min_signed, Int32.max_signed. intros Hx Hi.
  destruct (Z.ltb_spec x 0).
  - apply (testbit_above_neg 31); lia.
  - apply (testbit_above_nonneg 31); lia.
Qed.

Lemma is_int_shr_31 (x : Z) :
  Int32.is_int x -> Int32.shr x 31 = if x <? 0 then -1 else 0.
Proof.
  unfold Int32.is_int, Int32.min_signed, Int32.max_signed, Int32.shr.
  intros Hx. rewrite Z.shiftr_div_pow2 by lia.
  destruct (Z.ltb_spec x 0).
  - symmetry. apply Z.div_unique with (r := x + 2 ^ 31); lia.
  - apply Z.div_small. lia.
Qed.

End Bits.

(** ** [bitXor] *)

(** C6. For all words [x] and [y], [bitXor x y] is the exclusive-or [x ^ y];
    the formula AND(NOT(AND(x,y)), NOT(AND(NOT x, NOT y))), which is the
    body of [bitXor], computes exclusive-or from complement and AND only. *)
Theorem bitXor_correct (x y : Z) :
  bitXor x y = Int32.xor x y /\
  bitXor x y =
    Int32.and (Int32.not (Int32.and x y))
              (Int32.not (Int32.and (Int32.not x) (Int32.not y))) /\
  Int32.and (Int32.not (Int32.and x y))
            (Int32.not (Int32.and (Int32.not x) (Int32.not y))) = Z.lxor x y.
Proof.
  assert (H : Int32.and (Int32.not (Int32.and x y))
                (Int32.not (Int32.and (Int32.not x) (Int32.not y)))
              = Z.lxor x y).
  { unfold Int32.and, Int32.not. apply Z.bits_inj'. intros i Hi.
    rewrite Z.lxor_spec, Z.land_spec, !Z.lnot_spec, !Z.land_spec,
      !Z.lnot_spec by assumption.
    destruct (Z.testbit x i), (Z.testbit y i); reflexivity. }
  unfold bitXor, Int32.xor. repeat split; assumption || reflexivity.
Qed.

(** ** [tmax] *)

(** C8. [tmax] is [0x7FFFFFFF], the largest [int], and adding one to it
    wraps around to [0x80000000], the smallest. *)
Theorem tmax_correct :
  tmax = 0x7FFFFFFF /\
  tmax = Int32.max_signed /\
  (forall x, Int32.is_int x -> x <= tmax) /\
  Int32.unsigned (Int32.add tmax 1) = 0x80000000 /\
  Int32.add tmax 1 = Int32.min_signed /\
  (forall x, Int32.is_int x -> Int32.add tmax 1 <= x).
Proof.
  assert (Ht : tmax = Int32.max_signed) by reflexivity.
  assert (Hs : Int32.add tmax 1 = Int32.min_signed) by reflexivity.
  repeat split; try reflexivity.
  - intros x [_ Hx]. rewrite Ht. exact Hx.
  - intros x [Hx _]. rewrite Hs. exact Hx.
Qed.

(** ** [allEvenBits] *)

Lemma even_bits_set_spec (x : Z) :
  even_bits_set x = true <->
  (forall i, 0 <= i < 32 -> Z.even i = true -> Z.testbit x i = true).
Proof.
  unfold even_bits_set. rewrite forallb_forall. split.
  - intros H i Hi Hev. apply H.
    assert (Hc : i = 0 \/ i = 1 \/ i = 2 \/ i = 3 \/ i = 4 \/ i = 5 \/ i = 6 \/
                 i = 7 \/ i = 8 \/ i = 9 \/ i = 10 \/ i = 11 \/ i = 12 \/
                 i = 13 \/ i = 14 \/ i = 15 \/ i = 16 \/ i = 17 \/ i = 18 \/
                 i = 19 \/ i = 20 \/ i = 21 \/ i = 22 \/ i = 23 \/ i = 24 \/
                 i = 25 \/ i = 26 \/ i = 27 \/ i = 28 \/ i = 29 \/ i = 30 \/
                 i = 31) by lia.
    unfold even_positions.
    repeat (destruct Hc as [-> | Hc]; [first [discriminate Hev | simpl; tauto] |]).
    subst i. discriminate Hev.
  - intros H i Hin. apply H.
    + unfold even_positions in Hin. simpl in Hin. lia.
    + unfold even_positions in Hin. simpl in Hin.
      repeat (destruct Hin as [<- | Hin]; [reflexivity |]). contradiction.
Qed.

Lemma land_1_testbit (x : Z) : Z.land x 1 = Z.b2z (Z.testbit x 0).
Proof.
  change 1 with (Z.ones 1). rewrite Z.land_ones by lia.
  rewrite Z.bit0_mod. reflexivity.
Qed.

Lemma allEvenBits_fold (x : Z) : allEvenBits x = Z.b2z (even_bits_set x).
Proof.
  unfold allEvenBits, Int32.and, Int32.shr. rewrite land_1_testbit. f_equal.
  repeat (rewrite ?Z.land_spec, ?Z.shiftr_spec by lia; simpl Z.add).
  unfold even_bits_set, even_positions, forallb.
  repeat match goal with
         | |- context [Z.testbit x ?k] =>
             let b := fresh "b" in
             generalize (Z.testbit x k); intros b
         end.
  btauto.
Qed.

(** C7. [allEvenBits x] is 1 when all the bits of [x] at the even
    positions 0, 2, ..., 30 are set and 0 otherwise; it is 0 at
    [0xFFFFFFFE] and 1 at [0x55555555] and [0xFFFFFFFF]. *)
Theorem allEvenBits_correct (x : Z) :
  allEvenBits x = (if even_bits_set x then 1 else 0) /\
  (even_bits_set x = true <->
   forall i, 0 <= i < 32 -> Z.even i = true -> Z.testbit x i = true) /\
  allEvenBits (Int32.signed 0xFFFFFFFE) = 0 /\
  allEvenBits (Int32.signed 0x55555555) = 1 /\
  allEvenBits (Int32.signed 0xFFFFFFFF) = 1.
Proof.
  split; [|split; [apply even_bits_set_spec | repeat split; reflexivity]].
  rewrite allEvenBits_fold. destruct (even_bits_set x); reflexivity.
Qed.

(** ** [logicalNeg] *)

(** [~x + 1] is the wrapped negation; it fixes [0] and [min_signed]. *)
Lemma neg_wrapped (x : Z) :
  Int32.add (Int32.not x) 1 = Int32.signed (- x).
Proof.
  unfold Int32.add, Int32.not. f_equal. apply Z.succ_lnot.
Qed.

Lemma neg_sign (x : Z) :
  Int32.is_int x -> 0 < x -> Int32.add (Int32.not x) 1 < 0.
Proof.
  intros Hx Hpos. rewrite neg_wrapped, signed_id.
  - lia.
  - in_range.
Qed.

(** C5. For every word [x], [logicalNeg x] is 1 when [x] is 0 and 0
    otherwise, [0x80000000] included; for a nonzero [x] one of [x] and
    [~x + 1] has its sign bit set, so that [(x | (~x + 1)) >> 31] is -1,
    while for 0 neither has.  [logicalNeg 3 = 0], [logicalNeg 0 = 1],
    [logicalNeg (-1) = 0]. *)
Theorem logicalNeg_correct (x : Z) :
  Int32.is_int x ->
  logicalNeg x = (if x =? 0 then 1 else 0) /\
  (x <> 0 ->
   Z.testbit x 31 || Z.testbit (Int32.add (Int32.not x) 1) 31 = true /\
   Int32.shr (Int32.or x (Int32.add (Int32.not x) 1)) 31 = -1) /\
  (x = 0 ->
   Z.testbit x 31 || Z.testbit (Int32.add (Int32.not x) 1) 31 = false /\
   Int32.shr (Int32.or x (Int32.add (Int32.not x) 1)) 31 = 0) /\
  Int32.add (Int32.not Int32.min_signed) 1 = Int32.min_signed /\
  logicalNeg Int32.min_signed = 0 /\
  logicalNeg 3 = 0 /\ logicalNeg 0 = 1 /\ logicalNeg (-1) = 0.
Proof.
  intros Hx.
  assert (Hnz : x <> 0 ->
    Z.testbit x 31 || Z.testbit (Int32.add (Int32.not x) 1) 31 = true /\
    Int32.shr (Int32.or x (Int32.add (Int32.not x) 1)) 31 = -1).
  { intros Hne.
    pose proof (signed_range (Z.lnot x + 1)) as Hn.
    fold (Int32.add (Z.lnot x) 1) in Hn. fold (Int32.not x) in Hn.
    unfold Int32.shr, Int32.or. rewrite Z.shiftr_lor.
    fold (Int32.shr x 31). fold (Int32.shr (Int32.add (Int32.not x) 1) 31).
    rewrite !is_int_shr_31 by assumption.
    rewrite !(is_int_testbit _ 31) by (assumption || lia).
    destruct (Z.ltb_spec x 0) as [Hneg | Hpos].
    - destruct (Int32.add (Int32.not x) 1 <? 0); split; reflexivity.
    - pose proof (neg_sign x Hx ltac:(lia)) as Hs.
      apply Z.ltb_lt in Hs. rewrite Hs. split; reflexivity. }
  repeat split; try reflexivity.
  - destruct (Z.eqb_spec x 0) as [-> | Hne]; [reflexivity|].
    unfold logicalNeg. destruct (Hnz Hne) as [_ ->]. reflexivity.
  - apply Hnz; assumption.
  - apply Hnz; assumption.
  - subst x. reflexivity.
  - subst x. reflexivity.
Qed.

Lemma logicalNeg_correct_witness :
  Int32.is_int 1234 /\ logicalNeg 1234 = 0.
Proof.
  assert (H : Int32.is_int 1234) by in_range.
  split; [exact H | exact (proj1 (logicalNeg_correct 1234 H))].
Defined.

(** ** [logicalShift] *)

Lemma unsigned_signed (z : Z) : Int32.unsigned (Int32.signed z) = Int32.unsigned z.
Proof.
  unfold Int32.unsigned, Int32.modulus. rewrite signed_sign_extend.
  apply sign_extend_eqm. lia.
Qed.

Lemma unsigned_range (z : Z) : 0 <= Int32.unsigned z < 2 ^ 32.
Proof.
  unfold Int32.unsigned, Int32.modulus. apply Z.mod_pos_bound. lia.
Qed.

(** Bits of the mask [((x & (1 << 31)) >> n) << 1]: the sign of [x] at
    the positions [32 - n .. 31], and above them when [n] is not 0. *)
Lemma bitmask_testbit (x n i : Z) :
  Int32.is_int x -> 0 <= n <= 31 -> 0 <= i ->
  Z.testbit (Int32.shl (Int32.shr (Int32.and x (Int32.shl 1 31)) n) 1) i =
  (x <? 0) && (32 - n <=? Z.min i 31).
Proof.
  intros Hx Hn Hi. change (Int32.shl 1 31) with (- 2 ^ 31).
  unfold Int32.shl, Int32.shr, Int32.and.
  rewrite signed_testbit, Z.shiftl_spec by lia.
  destruct (Z.eq_dec i 0) as [-> | Hne].
  - rewrite Z.testbit_neg_r by lia.
    destruct (Z.leb_spec (32 - n) (Z.min 0 31)); [lia|].
    symmetry. apply andb_false_r.
  - rewrite Z.shiftr_spec, Z.land_spec, testbit_min_signed by lia.
    destruct (Z.leb_spec 31 (Z.min i 31 - 1 + n)),
      (Z.leb_spec (32 - n) (Z.min i 31));
      rewrite ?andb_false_r; try reflexivity; try lia.
    rewrite is_int_testbit by (assumption || lia). reflexivity.
Qed.

(** C4. For every word [x] and every [n] in [0, 31], [logicalShift x n] is
    [x] shifted right by [n] as an unsigned number: the [n] vacated high
    bits are 0 whatever the sign of [x].  [logicalShift 0x87654321 4] is
    [0x08765432], and [logicalShift x 0] is [x]. *)
Theorem logicalShift_correct (x n : Z) :
  Int32.is_int x -> 0 <= n <= 31 ->
  logicalShift x n = Int32.signed (Int32.shru (Int32.unsigned x) n) /\
  Int32.unsigned (logicalShift x n) = Int32.unsigned x / 2 ^ n /\
  (forall i, 32 - n <= i < 32 -> Z.testbit (logicalShift x n) i = false) /\
  logicalShift (Int32.signed 0x87654321) 4 = 0x08765432 /\
  logicalShift x 0 = x.
Proof.
  intros Hx Hn.
  assert (Hbits : forall m i, 0 <= m <= 31 -> 0 <= i ->
            Z.testbit (logicalShift x m) i =
            Z.testbit x (Z.min i 31 + m) && (Z.min i 31 + m <? 32)).
  { intros m i Hm Hi. unfold logicalShift, Int32.xor.
    rewrite Z.lxor_spec, bitmask_testbit by (assumption || lia).
    unfold Int32.shr. rewrite Z.shiftr_spec by lia.
    destruct (Z.le_gt_cases i 31) as [Hle | Hgt].
    - rewrite Z.min_l by lia.
      destruct (Z.leb_spec (32 - m) i), (Z.ltb_spec (i + m) 32); try lia.
      + rewrite is_int_testbit by (assumption || lia).
        destruct (x <? 0); reflexivity.
      + rewrite andb_false_r, xorb_false_r, andb_true_r. reflexivity.
    - rewrite Z.min_r by lia.
      rewrite !is_int_testbit by (assumption || lia).
      destruct (Z.leb_spec (32 - m) 31), (Z.ltb_spec (31 + m) 32); try lia;
        destruct (x <? 0); reflexivity. }
  assert (Heq : logicalShift x n =
                Int32.signed (Int32.shru (Int32.unsigned x) n)).
  { apply Z.bits_inj'. intros i Hi.
    rewrite Hbits, signed_testbit by lia.
    unfold Int32.shru, Int32.unsigned, Int32.modulus.
    rewrite Z.shiftr_spec, Z.testbit_mod_pow2 by lia.
    apply andb_comm. }
  repeat split.
  - exact Heq.
  - rewrite Heq, unsigned_signed. unfold Int32.shru.
    rewrite Z.shiftr_div_pow2 by lia.
    pose proof (unsigned_range x) as Hu.
    unfold Int32.unsigned at 1. unfold Int32.modulus.
    apply Z.mod_small. split.
    + apply Z.div_pos; lia.
    + apply Z.le_lt_trans with (Int32.unsigned x); [|lia].
      apply Z.div_le_upper_bound; [lia|].
      assert (1 <= 2 ^ n) by lia. nia.
  - intros i Hi. rewrite Hbits by lia.
    rewrite Z.min_l by lia.
    destruct (Z.ltb_spec (i + n) 32); [lia|]. apply andb_false_r.
  - apply Z.bits_inj'. intros i Hi. rewrite Hbits, Z.add_0_r by lia.
    destruct (Z.ltb_spec (Z.min i 31) 32); [|lia]. rewrite andb_true_r.
    destruct (Z.le_gt_cases i 31).
    + rewrite Z.min_l by lia. reflexivity.
    + rewrite Z.min_r by lia.
      rewrite !is_int_testbit by (assumption || lia). reflexivity.
Qed.

Lemma logicalShift_correct_witness :
  Int32.is_int (-2023406815) /\ 0 <= 4 <= 31 /\
  logicalShift (-2023406815) 4 = 141972530.
Proof.
  assert (H : Int32.is_int (-2023406815)) by in_range.
  assert (Hn : 0 <= 4 <= 31) by lia.
  split; [exact H | split; [exact Hn |]].
  exact (proj1 (logicalShift_correct (-2023406815) 4 H Hn)).
Defined.

(** ** [twosBits] *)

(** [shift = (~n + 1) + 32] is [32 - n]. *)
Lemma twosBits_shift (n : Z) :
  1 <= n <= 32 -> Int32.add (Int32.add (Int32.not n) 1) 32 = 32 - n.
Proof.
  intros Hn. rewrite neg_wrapped.
  rewrite (signed_id (- n)) by in_range.
  unfold Int32.add. rewrite signed_id; [lia|].
  in_range.
Qed.

(** Shifting left and back by [32 - n] sign-extends the low [n] bits. *)
Lemma shl_shr_sign_extend (x n : Z) :
  1 <= n <= 32 ->
  Int32.shr (Int32.shl x (32 - n)) (32 - n) = sign_extend n x.
Proof.
  intros Hn. unfold Int32.shr, Int32.shl.
  apply Z.bits_inj'. intros i Hi.
  rewrite Z.shiftr_spec, signed_testbit, Z.shiftl_spec by lia.
  rewrite sign_extend_testbit by lia.
  f_equal. lia.
Qed.

(** C3. For every word [x] and every [n] in [1, 32], [twosBits x n] is 1
    when sign-extending the low [n] bits of [x] gives [x] back, that is
    when [x] lies in the [n]-bit two's-complement range, and 0 otherwise.
    [twosBits 5 3 = 0], [twosBits (-4) 3 = 1], and [twosBits x 32 = 1]. *)
Theorem twosBits_correct (x n : Z) :
  Int32.is_int x -> 1 <= n <= 32 ->
  twosBits x n = (if sign_extend n x =? x then 1 else 0) /\
  (sign_extend n x = x <-> - 2 ^ (n - 1) <= x < 2 ^ (n - 1)) /\
  twosBits 5 3 = 0 /\ twosBits (-4) 3 = 1 /\
  twosBits x 32 = 1.
Proof.
  intros Hx Hn.
  assert (Hgen : forall m, 1 <= m <= 32 ->
            twosBits x m = if sign_extend m x =? x then 1 else 0).
  { intros m Hm. unfold twosBits.
    rewrite twosBits_shift, shl_shr_sign_extend by assumption.
    unfold Int32.lognot, Int32.xor.
    destruct (Z.eqb_spec (sign_extend m x) x) as [-> | Hne].
    - rewrite Z.lxor_nilpotent. reflexivity.
    - destruct (Z.eqb_spec (Z.lxor x (sign_extend m x)) 0) as [H0 | H0];
        [|reflexivity].
      apply Z.lxor_eq in H0. congruence. }
  split; [|split; [|split; [|split]]]; try reflexivity.
  - apply Hgen. assumption.
  - apply sign_extend_fixpoint. lia.
  - rewrite Hgen by lia.
    replace (sign_extend 32 x) with x; [rewrite Z.eqb_refl; reflexivity|].
    symmetry. rewrite <- signed_sign_extend. apply signed_id. assumption.
Qed.

Lemma twosBits_correct_witness :
  Int32.is_int (-4) /\ 1 <= 3 <= 32 /\
  twosBits (-4) 3 = (if sign_extend 3 (-4) =? -4 then 1 else 0).
Proof.
  assert (H : Int32.is_int (-4)) by in_range.
  assert (Hn : 1 <= 3 <= 32) by lia.
  split; [exact H | split; [exact Hn |]].
  exact (proj1 (twosBits_correct (-4) 3 H Hn)).
Defined.

(** ** [floatFloat2Int]: the fields and the branches *)

Section Float.

Variable uf : Z.
Hypothesis uf_range : Int32.is_unsigned uf.

Let uf_bounds : 0 <= uf < 2 ^ 32.
Proof.
  unfold Int32.is_unsigned, Int32.max_unsigned in uf_range. lia.
Qed.

Lemma exponent_field_range : 0 <= IEEE754.exponent_field uf < 256.
Proof.
  unfold IEEE754.exponent_field. change 256 with (2 ^ 8).
  apply Z.mod_pos_bound. lia.
Qed.

Lemma fraction_field_range : 0 <= IEEE754.fraction_field uf < 2 ^ 23.
Proof.
  unfold IEEE754.fraction_field. apply Z.mod_pos_bound. lia.
Qed.

(** [exp = (uf >> 23) & 0xFF]. *)
Lemma exp_field :
  Int32.signed (Int32.and (Int32.shru uf 23) 0xFF) = IEEE754.exponent_field uf.
Proof.
  unfold Int32.and, Int32.shru. change 0xFF with (Z.ones 8).
  rewrite Z.land_ones, Z.shiftr_div_pow2 by lia.
  fold (IEEE754.exponent_field uf).
  pose proof exponent_field_range.
  apply signed_id.
  in_range.
Qed.

(** [frac = uf & 0x7FFFFF]. *)
Lemma frac_field :
  Int32.signed (Int32.and uf 0x7FFFFF) = IEEE754.fraction_field uf.
Proof.
  unfold Int32.and. change 0x7FFFFF with (Z.ones 23).
  rewrite Z.land_ones by lia.
  fold (IEEE754.fraction_field uf).
  pose proof fraction_field_range.
  apply signed_id.
  in_range.
Qed.

(** [negSign = uf & (1 << 31)] is nonzero exactly when bit 31 is set. *)
Lemma negSign_field :
  (Int32.signed (Int32.and uf (Int32.unsigned (Int32.shl 1 31))) =? 0)
  = negb (IEEE754.sign_bit uf).
Proof.
  change (Int32.unsigned (Int32.shl 1 31)) with (2 ^ 31).
  unfold Int32.and, IEEE754.sign_bit.
  assert (H : Z.land uf (2 ^ 31) = if Z.testbit uf 31 then 2 ^ 31 else 0).
  { apply Z.bits_inj'. intros i Hi.
    rewrite Z.land_spec, Z.pow2_bits_eqb by lia.
    destruct (Z.eqb_spec 31 i) as [<- | Hne].
    - rewrite andb_true_r. destruct (Z.testbit uf 31); reflexivity.
    - rewrite andb_false_r. destruct (Z.testbit uf 31).
      + rewrite Z.pow2_bits_false by lia. reflexivity.
      + rewrite Z.bits_0. reflexivity. }
  rewrite H. destruct (Z.testbit uf 31); reflexivity.
Qed.

Lemma sign_bit_ge : IEEE754.sign_bit uf = (2 ^ 31 <=? uf).
Proof.
  unfold IEEE754.sign_bit. apply (testbit_top 31); [lia|].
  change (31 + 1) with 32. exact uf_bounds.
Qed.

End Float.

(** [result = frac | 0x800000] adds the leading one. *)
Lemma or_leading_bit (frac : Z) :
  0 <= frac < 2 ^ 23 -> Int32.or frac 0x800000 = frac + 2 ^ 23.
Proof.
  intros Hf. unfold Int32.or. change 0x800000 with (2 ^ 23).
  rewrite <- Z.add_lor_land.
  assert (H : Z.land frac (2 ^ 23) = 0).
  { apply Z.bits_inj'. intros i Hi.
    rewrite Z.land_spec, Z.pow2_bits_eqb, Z.bits_0 by lia.
    destruct (Z.eqb_spec 23 i) as [<- | Hne].
    - rewrite (testbit_above_nonneg 23) by lia. reflexivity.
    - apply andb_false_r. }
  rewrite H. lia.
Qed.

(** The aligned significand, without wrap-around: nothing is lost at the
    top when [e <= 30]. *)
Lemma align_value (m e : Z) :
  2 ^ 23 <= m < 2 ^ 24 -> 0 <= e <= 30 ->
  align m e =
    (if e >? 23 then m * 2 ^ (e - 23) else m / 2 ^ (23 - e)) /\
  1 <= align m e < 2 ^ 31.
Proof.
  intros Hm He. unfold align, Int32.shl, Int32.shr, Int32.sub.
  rewrite (signed_id (e - 23)), (signed_id (23 - e)) by in_range.
  destruct (Z.gtb_spec e 23) as [Hgt | Hle].
  - rewrite Z.shiftl_mul_pow2 by lia.
    assert (Hp : 1 <= 2 ^ (e - 23) <= 2 ^ 7).
    { split; [lia | apply Z.pow_le_mono_r; lia]. }
    change (2 ^ 7) with 128 in Hp.
    rewrite signed_id;
      [| unfold Int32.is_int, Int32.min_signed, Int32.max_signed ]; nia.
  - rewrite Z.shiftr_div_pow2 by lia.
    assert (Hp : 1 <= 2 ^ (23 - e) <= 2 ^ 23).
    { split; [lia | apply Z.pow_le_mono_r; lia]. }
    split; [reflexivity|]. split.
    + apply Z.div_le_lower_bound; lia.
    + apply Z.le_lt_trans with m; [|lia].
      apply Z.div_le_upper_bound; nia.
Qed.

Lemma floatFloat2Int_exit_branches (uf : Z) :
  floatFloat2Int_exit uf = branches uf.
Proof.
  unfold floatFloat2Int_exit, branches. cbv zeta.
  rewrite exp_field, frac_field, negSign_field.
  change (Int32.signed 0x80000000) with (- 2 ^ 31).
  change 0xFF with 255. change 0x0 with 0.
  pose proof (exponent_field_range uf) as HE.
  pose proof (fraction_field_range uf) as HF.
  set (E := IEEE754.exponent_field uf) in *.
  set (f := IEEE754.fraction_field uf) in *.
  destruct (uf =? 0); [reflexivity|].
  destruct (Z.eqb_spec E 255); [reflexivity|].
  destruct (Z.eqb_spec E 0); [reflexivity|].
  assert (He : Int32.sub E 127 = E - 127).
  { apply signed_id.
    in_range. }
  rewrite He, or_leading_bit by assumption.
  destruct (Z.ltb_spec (E - 127) 0), (Z.ltb_spec E 127); try lia;
    [reflexivity|].
  unfold Z.geb. rewrite Z.compare_antisym.
  destruct (Z.leb_spec 158 E) as [Hhi | Hlo].
  - destruct (Z.compare_spec 31 (E - 127)); try lia; reflexivity.
  - destruct (Z.compare_spec 31 (E - 127)); try lia. cbn [CompOpp].
    destruct (align_value (f + 2 ^ 23) (E - 127)) as [Hal Hbd]; [lia | lia |].
    assert (Hr : align (f + 2 ^ 23) (E - 127) =
                 if 150 <? E then (f + 2 ^ 23) * 2 ^ (E - 150)
                 else (f + 2 ^ 23) / 2 ^ (150 - E)).
    { rewrite Hal.
      destruct (Z.gtb_spec (E - 127) 23), (Z.ltb_spec 150 E); try lia;
        do 2 f_equal; lia. }
    rewrite <- Hr.
    destruct (IEEE754.sign_bit uf); cbn [negb].
    + rewrite neg_wrapped, signed_id; [reflexivity|].
      in_range.
    + rewrite is_int_shr_31
        by in_range.
      destruct (Z.ltb_spec (align (f + 2 ^ 23) (E - 127)) 0); [lia|].
      reflexivity.
Qed.

(** ** Truncation of scaled rationals *)

Section Truncation.

Local Open Scope Q_scope.

Lemma truncate_Qmake (a : Z) (d : positive) :
  IEEE754.truncate (a # d) = Z.quot a (Zpos d).
Proof.
  unfold IEEE754.truncate, Qle_bool, Qceiling, Qfloor, Qopp. cbn [Qnum Qden].
  rewrite Z.mul_0_l, Z.mul_1_r.
  destruct (Z.leb_spec 0 a) as [Hle | Hlt].
  - symmetry. apply Z.quot_div_nonneg; lia.
  - rewrite <- (Z.quot_div_nonneg (- a)) by lia.
    rewrite Z.quot_opp_l by lia. lia.
Qed.

Lemma truncate_comp (p q : Q) :
  p == q -> IEEE754.truncate p = IEEE754.truncate q.
Proof.
  intros H. unfold IEEE754.truncate.
  assert (Hb : Qle_bool 0 p = Qle_bool 0 q).
  { apply eq_true_iff_eq. rewrite !Qle_bool_iff, H. reflexivity. }
  rewrite Hb, (Qfloor_comp p q H), (Qceiling_comp p q H). reflexivity.
Qed.

Lemma truncate_inject_Z (a : Z) : IEEE754.truncate (inject_Z a) = a.
Proof.
  unfold inject_Z. rewrite truncate_Qmake. apply Z.quot_1_r.
Qed.

(** Scaling an integer by a power of two. *)
Lemma scale_nonneg (a k : Z) :
  (0 <= k)%Z -> inject_Z a * 2 ^ k == inject_Z (a * 2 ^ k).
Proof.
  intros Hk. rewrite inject_Z_mult, Zpower_Qpower by assumption.
  reflexivity.
Qed.

Lemma scale_neg (a k : Z) :
  (k < 0)%Z -> inject_Z a * 2 ^ k == a # Z.to_pos (2 ^ (- k)).
Proof.
  intros Hk. rewrite (Qmake_Qdiv a), Z2Pos.id by lia.
  replace k with (- - k)%Z at 1 by lia.
  rewrite Qpower_opp, Zpower_Qpower by lia. reflexivity.
Qed.

Lemma truncate_scale (a k : Z) :
  IEEE754.truncate (inject_Z a * 2 ^ k) =
  if (0 <=? k)%Z then (a * 2 ^ k)%Z else Z.quot a (2 ^ (- k)).
Proof.
  destruct (Z.leb_spec 0 k) as [Hle | Hlt].
  - rewrite (truncate_comp _ _ (scale_nonneg a k Hle)).
    apply truncate_inject_Z.
  - rewrite (truncate_comp _ _ (scale_neg a k Hlt)).
    rewrite truncate_Qmake, Z2Pos.id by lia. reflexivity.
Qed.

End Truncation.

(** ** The value of a finite bit pattern as a scaled integer *)

Section Value.

Local Open Scope Q_scope.

Lemma fraction_scaled (f : Z) : f # 2 ^ 23 == inject_Z f * 2 ^ (-23).
Proof.
  change (2 ^ (-23)) with (1 # 2 ^ 23).
  unfold Qeq, Qmult, inject_Z. cbn [Qnum Qden]. lia.
Qed.

Lemma significand_scaled (f : Z) :
  1 + (f # 2 ^ 23) == inject_Z (f + 2 ^ 23) * 2 ^ (-23).
Proof.
  change (2 ^ (-23)) with (1 # 2 ^ 23).
  unfold Qeq, Qmult, Qplus, inject_Z. cbn [Qnum Qden]. lia.
Qed.

Lemma two_nonzero : ~ 2 == 0.
Proof. discriminate. Qed.

Lemma value_scaled (uf : Z) :
  IEEE754.exponent_field uf <> 255%Z ->
  exists q, IEEE754.value uf = Some q /\
            q == inject_Z (IEEE754.sign_factor uf * significand uf)
                 * 2 ^ scale uf.
Proof.
  intros HE. unfold IEEE754.value, significand, scale.
  destruct (Z.eqb_spec (IEEE754.exponent_field uf) 255) as [|_]; [contradiction|].
  destruct (Z.eqb_spec (IEEE754.exponent_field uf) 0) as [H0 | H0];
    eexists; (split; [reflexivity|]).
  - rewrite fraction_scaled, inject_Z_mult.
    change (-149)%Z with (-23 + -126)%Z.
    rewrite (Qpower_plus 2 (-23) (-126) two_nonzero). ring.
  - rewrite significand_scaled, inject_Z_mult.
    replace (IEEE754.exponent_field uf - 150)%Z
      with (-23 + (IEEE754.exponent_field uf - 127))%Z by lia.
    rewrite (Qpower_plus 2 (-23) _ two_nonzero). ring.
Qed.

End Value.

Lemma quot_signed (s m d : Z) :
  s = 1 \/ s = -1 -> 0 <= m -> 0 < d -> Z.quot (s * m) d = s * (m / d).
Proof.
  intros [-> | ->] Hm Hd.
  - rewrite !Z.mul_1_l. apply Z.quot_div_nonneg; lia.
  - replace (-1 * m) with (- m) by lia.
    rewrite Z.quot_opp_l, Z.quot_div_nonneg by lia. lia.
Qed.

Lemma sign_factor_cases (uf : Z) :
  IEEE754.sign_factor uf = 1 \/ IEEE754.sign_factor uf = -1.
Proof.
  unfold IEEE754.sign_factor. destruct (IEEE754.sign_bit uf); auto.
Qed.

Lemma significand_nonneg (uf : Z) : 0 <= significand uf.
Proof.
  unfold significand. pose proof (fraction_field_range uf).
  destruct (IEEE754.exponent_field uf =? 0); lia.
Qed.

(** [to_int] in terms of the fields. *)
Lemma to_int_fields (uf : Z) :
  IEEE754.to_int uf =
  if IEEE754.exponent_field uf =? 255 then - 2 ^ 31
  else
    let t := IEEE754.sign_factor uf * truncated_magnitude uf in
    if Int32.is_intb t then t else - 2 ^ 31.
Proof.
  unfold IEEE754.to_int. change (Int32.signed 0x80000000) with (- 2 ^ 31).
  destruct (Z.eqb_spec (IEEE754.exponent_field uf) 255) as [HE | HE].
  - unfold IEEE754.value. rewrite HE. reflexivity.
  - destruct (value_scaled uf HE) as (q & -> & Hq).
    rewrite (truncate_comp _ _ Hq), truncate_scale.
    unfold truncated_magnitude. cbv zeta.
    destruct (Z.leb_spec 0 (scale uf)).
    + rewrite Z.mul_assoc. reflexivity.
    + rewrite quot_signed;
        [reflexivity | apply sign_factor_cases | apply significand_nonneg | lia].
Qed.

(** ** [floatFloat2Int] against the conversion *)

Lemma truncated_magnitude_normal (uf : Z) :
  127 <= IEEE754.exponent_field uf <= 157 ->
  truncated_magnitude uf =
    (if 150 <? IEEE754.exponent_field uf
     then (IEEE754.fraction_field uf + 2 ^ 23)
          * 2 ^ (IEEE754.exponent_field uf - 150)
     else (IEEE754.fraction_field uf + 2 ^ 23)
          / 2 ^ (150 - IEEE754.exponent_field uf)) /\
  1 <= truncated_magnitude uf < 2 ^ 31.
Proof.
  intros HE. unfold truncated_magnitude, significand, scale.
  pose proof (fraction_field_range uf) as HF.
  set (E := IEEE754.exponent_field uf) in *.
  set (f := IEEE754.fraction_field uf) in *.
  destruct (align_value (f + 2 ^ 23) (E - 127)) as [Hal Hbd]; [lia | lia |].
  rewrite Hal in Hbd. clear Hal.
  destruct (Z.eqb_spec E 0); [lia|].
  destruct (Z.leb_spec 0 (E - 150)), (Z.ltb_spec 150 E),
    (Z.gtb_spec (E - 127) 23); try lia.
  - replace (E - 127 - 23) with (E - 150) in Hbd by lia. split; [reflexivity | lia].
  - assert (E = 150) as HE150 by lia. rewrite HE150 in *.
    change (2 ^ (150 - 150)) with 1. change (2 ^ (23 - (150 - 127))) with 1 in Hbd.
    rewrite Z.div_1_r in *. split; lia.
  - replace (23 - (E - 127)) with (150 - E) in Hbd by lia.
    replace (- (E - 150)) with (150 - E) by lia. split; [reflexivity | lia].
Qed.

Lemma truncated_magnitude_small (uf : Z) :
  IEEE754.exponent_field uf < 127 -> truncated_magnitude uf = 0.
Proof.
  intros HE. unfold truncated_magnitude, significand, scale.
  pose proof (fraction_field_range uf) as HF.
  pose proof (exponent_field_range uf) as HR.
  set (E := IEEE754.exponent_field uf) in *.
  set (f := IEEE754.fraction_field uf) in *.
  destruct (Z.eqb_spec E 0).
  - apply Z.div_small. change (2 ^ (- -149)) with (2 ^ 149). lia.
  - destruct (Z.leb_spec 0 (E - 150)); [lia|].
    apply Z.div_small.
    assert (2 ^ 24 <= 2 ^ (- (E - 150))) by (apply Z.pow_le_mono_r; lia).
    lia.
Qed.

Lemma truncated_magnitude_large (uf : Z) :
  158 <= IEEE754.exponent_field uf <= 254 ->
  2 ^ 31 <= truncated_magnitude uf.
Proof.
  intros HE. unfold truncated_magnitude, significand, scale.
  pose proof (fraction_field_range uf) as HF.
  set (E := IEEE754.exponent_field uf) in *.
  set (f := IEEE754.fraction_field uf) in *.
  destruct (Z.eqb_spec E 0); [lia|].
  destruct (Z.leb_spec 0 (E - 150)); [|lia].
  assert (2 ^ 8 <= 2 ^ (E - 150)) by (apply Z.pow_le_mono_r; lia).
  change (2 ^ 31) with (2 ^ 23 * 2 ^ 8). nia.
Qed.

Lemma floatFloat2Int_to_int (uf : Z) :
  floatFloat2Int uf = IEEE754.to_int uf.
Proof.
  destruct (Z.eqb_spec uf 0) as [-> | Hnz]; [reflexivity|].
  unfold floatFloat2Int.
  rewrite floatFloat2Int_exit_branches, to_int_fields.
  unfold branches. cbv zeta.
  pose proof (exponent_field_range uf) as HR.
  destruct (Z.eqb_spec uf 0); [contradiction|].
  destruct (Z.eqb_spec (IEEE754.exponent_field uf) 255); [reflexivity|].
  destruct (Z.eqb_spec (IEEE754.exponent_field uf) 0) as [H0 | H0].
  { rewrite truncated_magnitude_small by lia. rewrite Z.mul_0_r. reflexivity. }
  destruct (Z.ltb_spec (IEEE754.exponent_field uf) 127).
  { rewrite truncated_magnitude_small by lia. rewrite Z.mul_0_r. reflexivity. }
  destruct (Z.leb_spec 158 (IEEE754.exponent_field uf)).
  { pose proof (truncated_magnitude_large uf ltac:(lia)) as Hl.
    unfold Int32.is_intb, Int32.min_signed, Int32.max_signed, IEEE754.sign_factor.
    cbn [snd].
    destruct (IEEE754.sign_bit uf);
      destruct (Z.leb_spec (- 2 ^ 31) (-1 * truncated_magnitude uf)),
        (Z.leb_spec (-1 * truncated_magnitude uf) (2 ^ 31 - 1));
      destruct (Z.leb_spec (- 2 ^ 31) (1 * truncated_magnitude uf)),
        (Z.leb_spec (1 * truncated_magnitude uf) (2 ^ 31 - 1));
      cbn [andb]; lia. }
  destruct (truncated_magnitude_normal uf ltac:(lia)) as [Heq Hbd].
  rewrite <- Heq.
  unfold Int32.is_intb, Int32.min_signed, Int32.max_signed, IEEE754.sign_factor.
  destruct (IEEE754.sign_bit uf); cbn [snd].
  - destruct (Z.leb_spec (- 2 ^ 31) (-1 * truncated_magnitude uf)),
      (Z.leb_spec (-1 * truncated_magnitude uf) (2 ^ 31 - 1));
      cbn [andb]; lia.
  - destruct (Z.leb_spec (- 2 ^ 31) (1 * truncated_magnitude uf)),
      (Z.leb_spec (1 * truncated_magnitude uf) (2 ^ 31 - 1));
      cbn [andb]; lia.
Qed.

Lemma magnitude_scaled (uf : Z) :
  IEEE754.exponent_field uf <> 255 ->
  exists a, IEEE754.magnitude uf = Some a /\
            (a == inject_Z (significand uf) * 2 ^ scale uf)%Q.
Proof.
  intros HE. unfold IEEE754.magnitude.
  destruct (value_scaled uf HE) as (q & -> & Hq).
  eexists. split; [reflexivity|].
  rewrite Hq, Qabs_Qmult.
  rewrite (Qabs_pos (2 ^ scale uf)) by (apply Qpower_0_le; discriminate).
  apply Qmult_comp; [|reflexivity].
  unfold inject_Z, Qabs. rewrite Z.abs_mul.
  pose proof (significand_nonneg uf).
  destruct (sign_factor_cases uf) as [-> | ->];
    rewrite (Z.abs_eq (significand uf)) by assumption;
    cbn [Z.abs]; rewrite Z.mul_1_l; reflexivity.
Qed.

Example value_examples :
  (exists q, IEEE754.value 0x3F800000 = Some q /\ q == 1)%Q /\
  (exists q, IEEE754.value 0xBFC00000 = Some q /\ q == - (3 # 2))%Q /\
  IEEE754.value 0x7F800000 = None /\
  (exists q, IEEE754.value 0x80000000 = Some q /\ q == 0)%Q.
Proof.
  repeat split; try (eexists; split; [reflexivity|]); reflexivity.
Qed.

(** C1. For every 32-bit pattern [uf], [floatFloat2Int uf] is the [int]
    obtained by truncating toward zero the value that [uf] encodes as a
    single-precision float, and [0x80000000] when [uf] is a NaN or an
    infinity or the truncated value is out of range; it maps [0x3F800000]
    to 1, [0xBFC00000] to -1, [0x7F800000] to [0x80000000] and 0 to 0. *)
Theorem floatFloat2Int_correct (uf : Z) :
  Int32.is_unsigned uf ->
  floatFloat2Int uf =
    match IEEE754.value uf with
    | None => Int32.signed 0x80000000
    | Some q =>
        if Int32.is_intb (IEEE754.truncate q) then IEEE754.truncate q
        else Int32.signed 0x80000000
    end /\
  Int32.unsigned (floatFloat2Int uf) = Int32.unsigned (IEEE754.to_int uf) /\
  floatFloat2Int 0x3F800000 = 1 /\
  floatFloat2Int 0xBFC00000 = -1 /\
  Int32.unsigned (floatFloat2Int 0x7F800000) = 0x80000000 /\
  floatFloat2Int 0 = 0.
Proof.
  intros _. rewrite floatFloat2Int_to_int.
  repeat split; reflexivity.
Qed.

Lemma floatFloat2Int_correct_witness :
  Int32.is_unsigned 0xC0490FDB /\ floatFloat2Int 0xC0490FDB = -3.
Proof.
  assert (H : Int32.is_unsigned 0xC0490FDB) by in_range.
  split; [exact H|].
  exact (eq_trans (proj1 (floatFloat2Int_correct 0xC0490FDB H)) eq_refl).
Defined.

(** C2. When the exponent field of [uf] is [0xFF] (NaN, infinity), and
    when [uf] is normalized with unbiased exponent [e >= 31],
    [floatFloat2Int uf] returns the value [0x80000000]; in the second case
    the magnitude encoded is larger than every [int]. *)
Theorem floatFloat2Int_sentinel (uf : Z) :
  Int32.is_unsigned uf ->
  IEEE754.exponent_field uf = 0xFF \/
  (IEEE754.exponent_field uf <> 0 /\ IEEE754.exponent_field uf <> 0xFF /\
   31 <= IEEE754.exponent_field uf - 127) ->
  floatFloat2Int uf = Int32.signed 0x80000000 /\
  Int32.unsigned (floatFloat2Int uf) = 0x80000000 /\
  match IEEE754.magnitude uf with
  | None =>
      IEEE754.exponent_field uf = 0xFF /\
      fst (floatFloat2Int_exit uf) = ExitSpecial
  | Some a =>
      31 <= IEEE754.exponent_field uf - 127 /\
      (inject_Z Int32.max_signed < a)%Q /\
      fst (floatFloat2Int_exit uf) = ExitLarge
  end.
Proof.
  intros Hu HE.
  pose proof (exponent_field_range uf) as HR.
  assert (Hnz : uf <> 0).
  { intros ->. vm_compute in HE. lia. }
  assert (Hex : floatFloat2Int_exit uf =
                if IEEE754.exponent_field uf =? 255
                then (ExitSpecial, - 2 ^ 31) else (ExitLarge, - 2 ^ 31)).
  { rewrite floatFloat2Int_exit_branches. unfold branches. cbv zeta.
    destruct (Z.eqb_spec uf 0); [contradiction|].
    destruct (Z.eqb_spec (IEEE754.exponent_field uf) 255); [reflexivity|].
    destruct (Z.eqb_spec (IEEE754.exponent_field uf) 0); [lia|].
    destruct (Z.ltb_spec (IEEE754.exponent_field uf) 127); [lia|].
    destruct (Z.leb_spec 158 (IEEE754.exponent_field uf)); [reflexivity | lia]. }
  assert (Hv : floatFloat2Int uf = - 2 ^ 31).
  { unfold floatFloat2Int. rewrite Hex.
    destruct (IEEE754.exponent_field uf =? 255); reflexivity. }
  split; [exact Hv|]. split; [rewrite Hv; reflexivity|].
  rewrite Hex.
  destruct (Z.eqb_spec (IEEE754.exponent_field uf) 255) as [H255 | H255].
  - unfold IEEE754.magnitude, IEEE754.value. rewrite H255. cbn. auto.
  - destruct (magnitude_scaled uf H255) as (a & -> & Ha).
    split; [lia|]. split; [|reflexivity].
    pose proof (truncated_magnitude_large uf ltac:(lia)) as Hl.
    unfold truncated_magnitude in Hl.
    destruct (Z.leb_spec 0 (scale uf)) as [Hk | Hk].
    + rewrite Ha, scale_nonneg, <- Zlt_Qlt by assumption.
      unfold Int32.max_signed. lia.
    + unfold scale in Hk.
      destruct (Z.eqb_spec (IEEE754.exponent_field uf) 0); lia.
Qed.

Lemma floatFloat2Int_sentinel_witness :
  Int32.is_unsigned 0x4F000000 /\ floatFloat2Int 0x4F000000 = -2147483648.
Proof.
  assert (H : Int32.is_unsigned 0x4F000000) by in_range.
  assert (HE : IEEE754.exponent_field 0x4F000000 = 0xFF \/
               (IEEE754.exponent_field 0x4F000000 <> 0 /\
                IEEE754.exponent_field 0x4F000000 <> 0xFF /\
                31 <= IEEE754.exponent_field 0x4F000000 - 127)).
  { right. vm_compute. repeat split; discriminate. }
  split; [exact H|].
  exact (proj1 (floatFloat2Int_sentinel 0x4F000000 H HE)).
Defined.

(** C9. On [0x80000000], the pattern of negative zero, [floatFloat2Int]
    returns 0: the test [uf == 0] accepts positive zero only, and the
    pattern leaves through the branch for exponent field 0.  So does every
    pattern with exponent field 0 and the sign bit set. *)
Theorem floatFloat2Int_negative_zero (uf : Z) :
  Int32.is_unsigned uf ->
  IEEE754.exponent_field uf = 0 ->
  IEEE754.sign_bit uf = true ->
  floatFloat2Int uf = 0 /\
  floatFloat2Int_exit uf = (ExitDenorm, 0) /\
  (uf =? 0) = false /\
  floatFloat2Int 0x80000000 = 0 /\
  floatFloat2Int_exit 0x80000000 = (ExitDenorm, 0) /\
  floatFloat2Int_exit 0 = (ExitZero, 0) /\
  (forall u, fst (floatFloat2Int_exit u) = ExitZero <-> u = 0).
Proof.
  intros Hu HE Hs.
  assert (Hzero : forall u, fst (floatFloat2Int_exit u) = ExitZero <-> u = 0).
  { intros u. rewrite floatFloat2Int_exit_branches. unfold branches. cbv zeta.
    destruct (Z.eqb_spec u 0) as [-> | Hne]; [tauto|].
    split; [|contradiction].
    repeat match goal with
           | |- context [if ?b then _ else _] => destruct b
           end; discriminate. }
  assert (Hnz : uf <> 0).
  { intros ->. discriminate Hs. }
  assert (Hex : floatFloat2Int_exit uf = (ExitDenorm, 0)).
  { rewrite floatFloat2Int_exit_branches. unfold branches. cbv zeta.
    rewrite HE. destruct (Z.eqb_spec uf 0); [contradiction | reflexivity]. }
  repeat split; try reflexivity; try apply Hzero.
  - unfold floatFloat2Int. rewrite Hex. reflexivity.
  - exact Hex.
  - apply Z.eqb_neq. exact Hnz.
Qed.

Lemma floatFloat2Int_negative_zero_witness :
  Int32.is_unsigned 0x80000000 /\
  IEEE754.exponent_field 0x80000000 = 0 /\
  IEEE754.sign_bit 0x80000000 = true /\
  floatFloat2Int 0x80000000 = 0.
Proof.
  assert (H : Int32.is_unsigned 0x80000000) by in_range.
  assert (HE : IEEE754.exponent_field 0x80000000 = 0) by reflexivity.
  assert (Hs : IEEE754.sign_bit 0x80000000 = true) by reflexivity.
  split; [exact H | split; [exact HE | split; [exact Hs |]]].
  exact (proj1 (floatFloat2Int_negative_zero 0x80000000 H HE Hs)).
Defined.

(** C10. The last guard of [floatFloat2Int] never fires.  A pattern
    reaches it exactly when it is normalized with the sign bit clear and
    unbiased exponent [0 <= e <= 30]; the magnitude computed there, the
    significand [frac | 0x800000] shifted left by [e - 23] when [e > 23]
    and right by [23 - e] otherwise, is below [2 ^ 31], so [result >> 31]
    is 0 and [result] itself is returned. *)
Theorem floatFloat2Int_guard_unreachable (uf : Z) :
  Int32.is_unsigned uf ->
  IEEE754.sign_bit uf = false ->
  0 <= IEEE754.exponent_field uf - 127 <= 30 ->
  let e := IEEE754.exponent_field uf - 127 in
  let frac := IEEE754.fraction_field uf in
  let result := align (Int32.or frac 0x800000) e in
  result = (if e >? 23 then Z.shiftl (frac + 2 ^ 23) (e - 23)
            else Z.shiftr (frac + 2 ^ 23) (23 - e)) /\
  0 < result < 2 ^ 31 /\
  Int32.shr result 31 = 0 /\
  floatFloat2Int_exit uf = (ExitResult, result) /\
  (forall u, fst (floatFloat2Int_exit u) <> ExitOverflow) /\
  (forall u, Int32.is_unsigned u ->
     fst (floatFloat2Int_exit u) = ExitResult ->
     IEEE754.sign_bit u = false /\
     0 <= IEEE754.exponent_field u - 127 <= 30).
Proof.
  intros Hu Hs He e frac result.
  pose proof (fraction_field_range uf) as HF. fold frac in HF.
  assert (Hor : Int32.or frac 0x800000 = frac + 2 ^ 23)
    by (apply or_leading_bit; assumption).
  destruct (align_value (frac + 2 ^ 23) e) as [Hal Hbd]; [lia | assumption |].
  assert (Hres : result = align (frac + 2 ^ 23) e)
    by (unfold result; rewrite Hor; reflexivity).
  rewrite <- Hres in Hal, Hbd.
  assert (Hnever : forall u, fst (floatFloat2Int_exit u) <> ExitOverflow).
  { intros u. rewrite floatFloat2Int_exit_branches. unfold branches. cbv zeta.
    repeat match goal with
           | |- context [if ?b then _ else _] => destruct b
           end; discriminate. }
  split; [|split; [|split; [|split; [|split]]]].
  - rewrite Hal. destruct (Z.gtb_spec e 23).
    + rewrite Z.shiftl_mul_pow2 by lia. reflexivity.
    + rewrite Z.shiftr_div_pow2 by lia. reflexivity.
  - lia.
  - rewrite is_int_shr_31
      by in_range.
    destruct (Z.ltb_spec result 0); [lia | reflexivity].
  - rewrite floatFloat2Int_exit_branches. unfold branches. cbv zeta.
    assert (Hnz : uf <> 0).
    { intros H0. rewrite H0 in He. vm_compute in He. destruct He as [He _].
      apply He. reflexivity. }
    rewrite Hs.
    destruct (Z.eqb_spec uf 0); [contradiction|].
    destruct (Z.eqb_spec (IEEE754.exponent_field uf) 255); [lia|].
    destruct (Z.eqb_spec (IEEE754.exponent_field uf) 0); [lia|].
    destruct (Z.ltb_spec (IEEE754.exponent_field uf) 127); [lia|].
    destruct (Z.leb_spec 158 (IEEE754.exponent_field uf)); [lia|].
    f_equal. rewrite Hal. fold frac. unfold e.
    destruct (Z.ltb_spec 150 (IEEE754.exponent_field uf)),
      (Z.gtb_spec (IEEE754.exponent_field uf - 127) 23); try lia;
      do 2 f_equal; lia.
  - exact Hnever.
  - intros u _. rewrite floatFloat2Int_exit_branches. unfold branches. cbv zeta.
    pose proof (exponent_field_range u).
    destruct (Z.eqb_spec u 0); [discriminate|].
    destruct (Z.eqb_spec (IEEE754.exponent_field u) 255); [discriminate|].
    destruct (Z.eqb_spec (IEEE754.exponent_field u) 0); [discriminate|].
    destruct (Z.ltb_spec (IEEE754.exponent_field u) 127); [discriminate|].
    destruct (Z.leb_spec 158 (IEEE754.exponent_field u)); [discriminate|].
    destruct (IEEE754.sign_bit u); [discriminate|].
    intros _. split; [reflexivity | lia].
Qed.

Lemma floatFloat2Int_guard_unreachable_witness :
  Int32.is_unsigned 0x4EFFFFFF /\
  IEEE754.sign_bit 0x4EFFFFFF = false /\
  0 <= IEEE754.exponent_field 0x4EFFFFFF - 127 <= 30 /\
  floatFloat2Int_exit 0x4EFFFFFF = (ExitResult, 2147483520).
Proof.
  assert (H : Int32.is_unsigned 0x4EFFFFFF) by in_range.
  assert (Hs : IEEE754.sign_bit 0x4EFFFFFF = false) by reflexivity.
  assert (HE : 0 <= IEEE754.exponent_field 0x4EFFFFFF - 127 <= 30)
    by (vm_compute; split; discriminate).
  split; [exact H | split; [exact Hs | split; [exact HE |]]].
  exact (proj1 (proj2 (proj2 (proj2
    (floatFloat2Int_guard_unreachable 0x4EFFFFFF H Hs HE))))).
Defined.

(** * Further properties of the functions *)

(** ** Results stay machine integers *)

(** An integer whose bits above 31 repeat bit 31 is an [int]. *)
Lemma is_int_of_bits (x : Z) :
  (forall i, 31 <= i -> Z.testbit x i = Z.testbit x 31) -> Int32.is_int x.
Proof.
  intros H. assert (Hx : x = Int32.signed x).
  { apply Z.bits_inj'. intros i Hi. rewrite signed_testbit by assumption.
    destruct (Z.le_gt_cases i 31).
    - rewrite Z.min_l by lia. reflexivity.
    - rewrite Z.min_r by lia. apply H. lia. }
  rewrite Hx. apply signed_range.
Qed.

Lemma bitXor_lxor (x y : Z) : bitXor x y = Z.lxor x y.
Proof.
  unfold bitXor, Int32.and, Int32.not. apply Z.bits_inj'. intros i Hi.
  rewrite Z.lxor_spec, Z.land_spec, !Z.lnot_spec, !Z.land_spec,
    !Z.lnot_spec by assumption.
  destruct (Z.testbit x i), (Z.testbit y i); reflexivity.
Qed.

(** X1. [bitXor] is commutative and associative, has 0 as unit, and
    cancels: xoring twice with the same word gives the first word back. *)
Theorem bitXor_algebra (x y z : Z) :
  bitXor x y = bitXor y x /\
  bitXor (bitXor x y) z = bitXor x (bitXor y z) /\
  bitXor x 0 = x /\
  bitXor x x = 0 /\
  bitXor (bitXor x y) y = x.
Proof.
  rewrite !bitXor_lxor. repeat split.
  - apply Z.lxor_comm.
  - apply Z.lxor_assoc.
  - apply Z.lxor_0_r.
  - apply Z.lxor_nilpotent.
  - rewrite Z.lxor_assoc, Z.lxor_nilpotent. apply Z.lxor_0_r.
Qed.

Lemma lxor_is_int (x y : Z) :
  Int32.is_int x -> Int32.is_int y -> Int32.is_int (Z.lxor x y).
Proof.
  intros Hx Hy. apply is_int_of_bits. intros i Hi.
  rewrite !Z.lxor_spec.
  rewrite (is_int_testbit x i), (is_int_testbit y i),
    (is_int_testbit x 31), (is_int_testbit y 31) by (assumption || lia).
  reflexivity.
Qed.

(** X2. On two [int]s [bitXor] returns an [int]: the complements taken
    on the way never leave the 32-bit range. *)
Theorem bitXor_is_int (x y : Z) :
  Int32.is_int x -> Int32.is_int y -> Int32.is_int (bitXor x y).
Proof.
  intros Hx Hy. unfold bitXor.
  assert (Hn : forall a, Int32.is_int a -> Int32.is_int (Int32.not a)).
  { intros a Ha. unfold Int32.not, Z.lnot. in_range. }
  assert (Ha : forall a b, Int32.is_int a -> Int32.is_int b ->
                 Int32.is_int (Int32.and a b)).
  { intros a b Ha Hb. apply is_int_of_bits. intros i Hi.
    unfold Int32.and. rewrite !Z.land_spec.
    rewrite (is_int_testbit a i), (is_int_testbit b i),
      (is_int_testbit a 31), (is_int_testbit b 31) by (assumption || lia).
    reflexivity. }
  auto.
Qed.

Lemma bitXor_is_int_witness :
  Int32.is_int 4 /\ Int32.is_int (-5) /\ Int32.is_int (bitXor 4 (-5)).
Proof.
  assert (Hx : Int32.is_int 4) by in_range.
  assert (Hy : Int32.is_int (-5)) by in_range.
  split; [exact Hx | split; [exact Hy | exact (bitXor_is_int 4 (-5) Hx Hy)]].
Defined.

(** ** [logicalNeg] as a test *)

Lemma logicalNeg_value (x : Z) :
  Int32.is_int x -> logicalNeg x = if x =? 0 then 1 else 0.
Proof.
  intros Hx. destruct (Z.eqb_spec x 0) as [-> | Hne]; [reflexivity|].
  unfold logicalNeg.
  pose proof (signed_range (Z.lnot x + 1)) as Hn.
  fold (Int32.add (Z.lnot x) 1) in Hn. fold (Int32.not x) in Hn.
  unfold Int32.shr, Int32.or. rewrite Z.shiftr_lor.
  fold (Int32.shr x 31). fold (Int32.shr (Int32.add (Int32.not x) 1) 31).
  rewrite !is_int_shr_31 by assumption.
  destruct (Z.ltb_spec x 0) as [Hneg | Hpos].
  - destruct (Int32.add (Int32.not x) 1 <? 0); reflexivity.
  - pose proof (neg_sign x Hx ltac:(lia)) as Hs.
    apply Z.ltb_lt in Hs. rewrite Hs. reflexivity.
Qed.

(** X3. [logicalNeg] of [bitXor x y] tests equality: it is 1 when the two
    [int]s are equal and 0 when they differ. *)
Theorem logicalNeg_bitXor (x y : Z) :
  Int32.is_int x -> Int32.is_int y ->
  logicalNeg (bitXor x y) = if x =? y then 1 else 0.
Proof.
  intros Hx Hy.
  rewrite bitXor_lxor.
  rewrite logicalNeg_value by (apply lxor_is_int; assumption).
  destruct (Z.eqb_spec x y) as [-> | Hne].
  - rewrite Z.lxor_nilpotent. reflexivity.
  - destruct (Z.eqb_spec (Z.lxor x y) 0) as [H0 | H0]; [|reflexivity].
    apply Z.lxor_eq in H0. contradiction.
Qed.

Lemma logicalNeg_bitXor_witness :
  Int32.is_int 7 /\ Int32.is_int (-2147483648) /\
  logicalNeg (bitXor 7 (-2147483648)) = 0.
Proof.
  assert (Hx : Int32.is_int 7) by in_range.
  assert (Hy : Int32.is_int (-2147483648)) by in_range.
  split; [exact Hx | split; [exact Hy |]].
  exact (logicalNeg_bitXor 7 (-2147483648) Hx Hy).
Defined.

(** X4. [logicalNeg] returns 0 or 1 only; applied twice it maps an [int]
    to its truth value (1 for nonzero), and applied three times it is
    [logicalNeg] again. *)
Theorem logicalNeg_twice (x : Z) :
  Int32.is_int x ->
  (logicalNeg x = 0 \/ logicalNeg x = 1) /\
  logicalNeg (logicalNeg x) = (if x =? 0 then 0 else 1) /\
  logicalNeg (logicalNeg (logicalNeg x)) = logicalNeg x.
Proof.
  intros Hx. rewrite (logicalNeg_value x Hx).
  destruct (x =? 0); repeat split; auto.
Qed.

Lemma logicalNeg_twice_witness :
  Int32.is_int (-17) /\ logicalNeg (logicalNeg (-17)) = 1.
Proof.
  assert (Hx : Int32.is_int (-17)) by in_range.
  split; [exact Hx | exact (proj1 (proj2 (logicalNeg_twice (-17) Hx)))].
Defined.

(** ** [allEvenBits] and bitwise AND *)

(** X5. [allEvenBits] returns 0 or 1 and commutes with AND: the even
    bits of [x & y] are all set exactly when those of [x] and those of [y]
    are.  Hence the odd bits do not matter: masking [x] with [0x55555555]
    leaves the result unchanged. *)
Theorem allEvenBits_and (x y : Z) :
  (allEvenBits x = 0 \/ allEvenBits x = 1) /\
  allEvenBits (Int32.and x y) = Int32.and (allEvenBits x) (allEvenBits y) /\
  allEvenBits (Int32.and x 0x55555555) = allEvenBits x.
Proof.
  assert (Hand : forall a b, even_bits_set (Int32.and a b)
                             = even_bits_set a && even_bits_set b).
  { intros a b. unfold even_bits_set, even_positions, forallb, Int32.and.
    rewrite !Z.land_spec.
    repeat match goal with
           | |- context [Z.testbit ?v ?k] =>
               let c := fresh "c" in
               generalize (Z.testbit v k); intros c
           end.
    btauto. }
  rewrite !allEvenBits_fold, !Hand.
  change (even_bits_set 0x55555555) with true. rewrite andb_true_r.
  repeat split.
  - destruct (even_bits_set x); auto.
  - destruct (even_bits_set x), (even_bits_set y); reflexivity.
Qed.

(** ** [logicalShift] as unsigned division *)

Lemma logicalShift_testbit (x n i : Z) :
  Int32.is_int x -> 0 <= n <= 31 -> 0 <= i ->
  Z.testbit (logicalShift x n) i =
  Z.testbit x (Z.min i 31 + n) && (Z.min i 31 + n <? 32).
Proof.
  intros Hx Hn Hi. unfold logicalShift, Int32.xor.
  rewrite Z.lxor_spec, bitmask_testbit by (assumption || lia).
  unfold Int32.shr. rewrite Z.shiftr_spec by lia.
  destruct (Z.le_gt_cases i 31) as [Hle | Hgt].
  - rewrite Z.min_l by lia.
    destruct (Z.leb_spec (32 - n) i), (Z.ltb_spec (i + n) 32); try lia.
    + rewrite is_int_testbit by (assumption || lia).
      destruct (x <? 0); reflexivity.
    + rewrite andb_false_r, xorb_false_r, andb_true_r. reflexivity.
  - rewrite Z.min_r by lia.
    rewrite !is_int_testbit by (assumption || lia).
    destruct (Z.leb_spec (32 - n) 31), (Z.ltb_spec (31 + n) 32); try lia;
      destruct (x <? 0); reflexivity.
Qed.

Lemma logicalShift_value (x n : Z) :
  Int32.is_int x -> 0 <= n <= 31 ->
  logicalShift x n = Int32.signed (Int32.unsigned x / 2 ^ n).
Proof.
  intros Hx Hn. rewrite <- Z.shiftr_div_pow2 by lia.
  apply Z.bits_inj'. intros i Hi.
  rewrite logicalShift_testbit, signed_testbit by (assumption || lia).
  unfold Int32.unsigned, Int32.modulus.
  rewrite Z.shiftr_spec, Z.testbit_mod_pow2 by lia.
  apply andb_comm.
Qed.

Lemma unsigned_is_int (x : Z) :
  Int32.is_int x ->
  Int32.unsigned x = if x <? 0 then x + 2 ^ 32 else x.
Proof.
  intros Hx. unfold Int32.unsigned, Int32.modulus.
  destruct (Z.ltb_spec x 0).
  - symmetry. apply Z.mod_unique with (q := -1); in_range.
  - apply Z.mod_small. in_range.
Qed.

Lemma div_pow2_bounds (u n : Z) :
  0 <= u < 2 ^ 32 -> 0 <= n <= 32 -> 0 <= u / 2 ^ n < 2 ^ (32 - n).
Proof.
  intros Hu Hn.
  assert (Hp : 2 ^ 32 = 2 ^ n * 2 ^ (32 - n)).
  { rewrite <- Z.pow_add_r by lia. f_equal. lia. }
  split.
  - apply Z.div_pos; lia.
  - apply Z.div_lt_upper_bound; lia.
Qed.

(** X6. Logical shifts compose: shifting by [n] and then by [m] is
    shifting by [n + m], as long as the total stays within 31. *)
Theorem logicalShift_compose (x n m : Z) :
  Int32.is_int x -> 0 <= n -> 0 <= m -> n + m <= 31 ->
  logicalShift (logicalShift x n) m = logicalShift x (n + m).
Proof.
  intros Hx Hn Hm Hnm.
  assert (Hi : Int32.is_int (logicalShift x n)).
  { rewrite logicalShift_value by (assumption || lia). apply signed_range. }
  rewrite (logicalShift_value (logicalShift x n) m) by (assumption || lia).
  rewrite (logicalShift_value x n) at 1 by (assumption || lia).
  rewrite unsigned_signed.
  pose proof (unsigned_range x) as Hu.
  pose proof (div_pow2_bounds (Int32.unsigned x) n Hu ltac:(lia)) as Hb.
  assert (2 ^ (32 - n) <= 2 ^ 32) by (apply Z.pow_le_mono_r; lia).
  unfold Int32.unsigned at 1. unfold Int32.modulus.
  rewrite Z.mod_small by lia.
  rewrite Z.div_div, <- Z.pow_add_r by lia.
  symmetry. apply logicalShift_value; assumption || lia.
Qed.

Lemma logicalShift_compose_witness :
  Int32.is_int (-2023406815) /\ 0 <= 4 /\ 0 <= 12 /\ 4 + 12 <= 31 /\
  logicalShift (logicalShift (-2023406815) 4) 12 = logicalShift (-2023406815) (4 + 12).
Proof.
  assert (Hx : Int32.is_int (-2023406815)) by in_range.
  assert (Hn : 0 <= 4) by lia.
  assert (Hm : 0 <= 12) by lia.
  assert (Hnm : 4 + 12 <= 31) by lia.
  split; [exact Hx | split; [exact Hn | split; [exact Hm | split; [exact Hnm |]]]].
  exact (logicalShift_compose (-2023406815) 4 12 Hx Hn Hm Hnm).
Defined.

(** X7. For a shift amount [n] in [1, 31] the result of [logicalShift] is
    never negative: it lies in [[0, 2^(32-n))]; shifting by 31 extracts
    the sign bit of [x]. *)
Theorem logicalShift_bounds (x n : Z) :
  Int32.is_int x -> 1 <= n <= 31 ->
  0 <= logicalShift x n < 2 ^ (32 - n) /\
  logicalShift x n = Int32.unsigned x / 2 ^ n /\
  logicalShift x 31 = (if x <? 0 then 1 else 0).
Proof.
  intros Hx Hn.
  assert (Hgen : forall k, 1 <= k <= 31 ->
            logicalShift x k = Int32.unsigned x / 2 ^ k /\
            0 <= Int32.unsigned x / 2 ^ k < 2 ^ (32 - k)).
  { intros k Hk. rewrite logicalShift_value by (assumption || lia).
    pose proof (div_pow2_bounds (Int32.unsigned x) k
                  (unsigned_range x) ltac:(lia)) as Hb.
    assert (2 ^ (32 - k) <= 2 ^ 31) by (apply Z.pow_le_mono_r; lia).
    split; [apply signed_id; in_range | exact Hb]. }
  destruct (Hgen n Hn) as [Hv Hb].
  split; [rewrite Hv; exact Hb | split; [exact Hv|]].
  destruct (Hgen 31 ltac:(lia)) as [-> _].
  rewrite unsigned_is_int by assumption.
  destruct (Z.ltb_spec x 0).
  - symmetry. apply Z.div_unique with (r := x + 2 ^ 31); in_range.
  - apply Z.div_small. in_range.
Qed.

Lemma logicalShift_bounds_witness :
  Int32.is_int (-1) /\ 1 <= 8 <= 31 /\
  0 <= logicalShift (-1) 8 < 2 ^ (32 - 8).
Proof.
  assert (Hx : Int32.is_int (-1)) by in_range.
  assert (Hn : 1 <= 8 <= 31) by lia.
  split; [exact Hx | split; [exact Hn |]].
  exact (proj1 (logicalShift_bounds (-1) 8 Hx Hn)).
Defined.

(** X8. On a nonnegative [int] the logical shift and the arithmetic shift
    [x >> n] agree: the mask is 0 and nothing is cleared. *)
Theorem logicalShift_nonneg (x n : Z) :
  Int32.is_int x -> 0 <= x -> 0 <= n <= 31 ->
  logicalShift x n = Int32.shr x n /\
  Int32.shl (Int32.shr (Int32.and x (Int32.shl 1 31)) n) 1 = 0.
Proof.
  intros Hx Hpos Hn. split.
  - rewrite logicalShift_value by assumption.
    rewrite unsigned_is_int by assumption.
    destruct (Z.ltb_spec x 0); [lia|].
    unfold Int32.shr. rewrite Z.shiftr_div_pow2 by lia.
    apply signed_id.
    assert (0 <= x / 2 ^ n <= x); [|in_range].
    split; [apply Z.div_pos; lia|].
    apply Z.div_le_upper_bound; [lia|].
    assert (1 <= 2 ^ n) by lia. nia.
  - apply Z.bits_inj'. intros i Hi.
    rewrite bitmask_testbit, Z.bits_0 by assumption.
    destruct (Z.ltb_spec x 0); [lia | reflexivity].
Qed.

Lemma logicalShift_nonneg_witness :
  Int32.is_int 12345 /\ 0 <= 12345 /\ 0 <= 3 <= 31 /\
  logicalShift 12345 3 = Int32.shr 12345 3.
Proof.
  assert (Hx : Int32.is_int 12345) by in_range.
  assert (Hp : 0 <= 12345) by lia.
  assert (Hn : 0 <= 3 <= 31) by lia.
  split; [exact Hx | split; [exact Hp | split; [exact Hn |]]].
  exact (proj1 (logicalShift_nonneg 12345 3 Hx Hp Hn)).
Defined.

(** ** [twosBits]: widths and complements *)

Lemma twosBits_value (x n : Z) :
  1 <= n <= 32 ->
  twosBits x n = if sign_extend n x =? x then 1 else 0.
Proof.
  intros Hn. unfold twosBits.
  rewrite twosBits_shift, shl_shr_sign_extend by assumption.
  unfold Int32.lognot, Int32.xor.
  destruct (Z.eqb_spec (sign_extend n x) x) as [-> | Hne].
  - rewrite Z.lxor_nilpotent. reflexivity.
  - destruct (Z.eqb_spec (Z.lxor x (sign_extend n x)) 0) as [H0 | H0];
      [|reflexivity].
    apply Z.lxor_eq in H0. congruence.
Qed.

Lemma twosBits_range (x n : Z) :
  1 <= n <= 32 ->
  (twosBits x n = 1 <-> - 2 ^ (n - 1) <= x < 2 ^ (n - 1)).
Proof.
  intros Hn. rewrite twosBits_value by assumption.
  rewrite <- sign_extend_fixpoint by lia.
  destruct (Z.eqb_spec (sign_extend n x) x); split; intros;
    try contradiction; try discriminate; auto.
Qed.

(** X9. A word that fits in [n] bits fits in every larger width up to 32:
    [twosBits] is monotone in [n]. *)
Theorem twosBits_monotone (x n m : Z) :
  Int32.is_int x -> 1 <= n -> n <= m -> m <= 32 ->
  twosBits x n = 1 -> twosBits x m = 1.
Proof.
  intros Hx Hn Hnm Hm H.
  apply twosBits_range in H; [|lia]. apply twosBits_range; [lia|].
  assert (2 ^ (n - 1) <= 2 ^ (m - 1)) by (apply Z.pow_le_mono_r; lia).
  lia.
Qed.

Lemma twosBits_monotone_witness :
  Int32.is_int (-4) /\ twosBits (-4) 3 = 1 /\ twosBits (-4) 17 = 1.
Proof.
  assert (Hx : Int32.is_int (-4)) by in_range.
  assert (H : twosBits (-4) 3 = 1) by reflexivity.
  split; [exact Hx | split; [exact H |]].
  apply (twosBits_monotone (-4) 3 17 Hx); [lia | lia | lia | exact H].
Defined.

(** X10. [twosBits] does not distinguish a word from its complement:
    [~x] fits in [n] bits exactly when [x] does. *)
Theorem twosBits_complement (x n : Z) :
  Int32.is_int x -> 1 <= n <= 32 ->
  twosBits (Int32.not x) n = twosBits x n.
Proof.
  intros Hx Hn. rewrite !twosBits_value by assumption.
  assert (Hiff : sign_extend n (Int32.not x) = Int32.not x <->
                 sign_extend n x = x).
  { rewrite !sign_extend_fixpoint by lia.
    unfold Int32.not, Z.lnot. lia. }
  destruct (Z.eqb_spec (sign_extend n (Int32.not x)) (Int32.not x)),
    (Z.eqb_spec (sign_extend n x) x); tauto || reflexivity.
Qed.

Lemma twosBits_complement_witness :
  Int32.is_int 5 /\ 1 <= 3 <= 32 /\ twosBits (Int32.not 5) 3 = twosBits 5 3.
Proof.
  assert (Hx : Int32.is_int 5) by in_range.
  assert (Hn : 1 <= 3 <= 32) by lia.
  split; [exact Hx | split; [exact Hn | exact (twosBits_complement 5 3 Hx Hn)]].
Defined.

(** ** [floatFloat2Int]: when it returns what *)

(** The three regimes of [floatFloat2Int], by exponent field. *)
Lemma floatFloat2Int_cases (uf : Z) :
  (IEEE754.exponent_field uf < 127 /\ floatFloat2Int uf = 0) \/
  (127 <= IEEE754.exponent_field uf <= 157 /\
   floatFloat2Int uf = IEEE754.sign_factor uf * truncated_magnitude uf /\
   1 <= truncated_magnitude uf < 2 ^ 31) \/
  (158 <= IEEE754.exponent_field uf /\ floatFloat2Int uf = - 2 ^ 31).
Proof.
  unfold floatFloat2Int. rewrite floatFloat2Int_exit_branches.
  unfold branches. cbv zeta.
  pose proof (exponent_field_range uf) as HR.
  destruct (Z.eqb_spec uf 0) as [-> | Hnz].
  { left. split; [vm_compute; reflexivity | reflexivity]. }
  destruct (Z.eqb_spec (IEEE754.exponent_field uf) 255).
  { right. right. split; [lia | reflexivity]. }
  destruct (Z.eqb_spec (IEEE754.exponent_field uf) 0).
  { left. split; [lia | reflexivity]. }
  destruct (Z.ltb_spec (IEEE754.exponent_field uf) 127).
  { left. split; [lia | reflexivity]. }
  destruct (Z.leb_spec 158 (IEEE754.exponent_field uf)).
  { right. right. split; [lia | reflexivity]. }
  right. left.
  destruct (truncated_magnitude_normal uf ltac:(lia)) as [Heq Hbd].
  rewrite <- Heq. split; [lia|]. split; [|exact Hbd].
  unfold IEEE754.sign_factor.
  destruct (IEEE754.sign_bit uf); cbn [snd]; lia.
Qed.


(** X12. The value [0x80000000] comes out exactly for the patterns whose
    exponent field is at least 158 (unbiased exponent 31 or more, NaN and
    infinities included): no smaller magnitude is mapped to it. *)
Theorem floatFloat2Int_sentinel_iff (uf : Z) :
  floatFloat2Int uf = Int32.signed 0x80000000 <->
  158 <= IEEE754.exponent_field uf.
Proof.
  change (Int32.signed 0x80000000) with (- 2 ^ 31).
  destruct (floatFloat2Int_cases uf) as [[HE ->] | [(HE & -> & Hb) | [HE ->]]].
  - split; [discriminate | lia].
  - destruct (sign_factor_cases uf) as [-> | ->]; split; lia.
  - split; [intros _; exact HE | reflexivity].
Qed.

(** X13. [floatFloat2Int] returns 0 exactly for the patterns whose
    exponent field is below 127, that is for the zeros, the denormalized
    values and the normalized values of magnitude below 1. *)
Theorem floatFloat2Int_zero_iff (uf : Z) :
  floatFloat2Int uf = 0 <-> IEEE754.exponent_field uf < 127.
Proof.
  destruct (floatFloat2Int_cases uf) as [[HE ->] | [(HE & -> & Hb) | [HE ->]]].
  - split; [intros _; exact HE | reflexivity].
  - destruct (sign_factor_cases uf) as [-> | ->]; split; lia.
  - split; [discriminate | lia].
Qed.

(** The fields of a pattern below [2^31], and of that pattern with the
    sign bit added. *)
Lemma fields_sign_set (uf : Z) :
  0 <= uf < 2 ^ 31 ->
  IEEE754.exponent_field (uf + 2 ^ 31) = IEEE754.exponent_field uf /\
  IEEE754.fraction_field (uf + 2 ^ 31) = IEEE754.fraction_field uf /\
  IEEE754.sign_bit (uf + 2 ^ 31) = true /\
  IEEE754.sign_bit uf = false.
Proof.
  intros Hu. unfold IEEE754.exponent_field, IEEE754.fraction_field.
  change (2 ^ 31) with (2 ^ 8 * 2 ^ 23) at 1 2.
  rewrite Z.div_add, Z.mod_add by lia.
  rewrite <- (Z.mul_1_l (2 ^ 8)) at 1. rewrite Z.mod_add by lia.
  repeat split.
  - rewrite sign_bit_ge by in_range. apply Z.leb_le. lia.
  - rewrite sign_bit_ge by in_range. apply Z.leb_gt. lia.
Qed.

Lemma exponent_field_small (uf : Z) :
  0 <= uf < 2 ^ 31 -> IEEE754.exponent_field uf = uf / 2 ^ 23.
Proof.
  intros Hu. unfold IEEE754.exponent_field. apply Z.mod_small. split.
  - apply Z.div_pos; lia.
  - apply Z.div_lt_upper_bound; lia.
Qed.

(** X14. Setting the sign bit negates the result: for a pattern [uf]
    below [0x4F000000] (a nonnegative float below [2^31]),
    [floatFloat2Int (uf + 0x80000000)] is the opposite of
    [floatFloat2Int uf], which is itself nonnegative. *)
Theorem floatFloat2Int_sign_flip (uf : Z) :
  0 <= uf < 0x4F000000 ->
  floatFloat2Int (uf + 0x80000000) = - floatFloat2Int uf /\
  0 <= floatFloat2Int uf.
Proof.
  intros Hu. change 0x80000000 with (2 ^ 31).
  destruct (fields_sign_set uf ltac:(lia)) as (HE & HF & Hs1 & Hs0).
  assert (Htm : truncated_magnitude (uf + 2 ^ 31) = truncated_magnitude uf).
  { unfold truncated_magnitude, significand, scale. rewrite HE, HF. reflexivity. }
  assert (Hlt : IEEE754.exponent_field uf <= 157).
  { rewrite exponent_field_small by lia.
    apply Z.lt_succ_r. apply Z.div_lt_upper_bound; lia. }
  destruct (floatFloat2Int_cases uf) as [[H1 ->] | [(H1 & -> & Hb) | [H1 _]]];
    [| | lia];
    destruct (floatFloat2Int_cases (uf + 2 ^ 31))
      as [[H2 ->] | [(H2 & -> & Hb2) | [H2 _]]];
    rewrite ?HE in H2; try lia.
  rewrite Htm. unfold IEEE754.sign_factor. rewrite Hs1, Hs0. lia.
Qed.

Lemma floatFloat2Int_sign_flip_witness :
  0 <= 0x40490FDB < 0x4F000000 /\
  floatFloat2Int (0x40490FDB + 0x80000000) = - floatFloat2Int 0x40490FDB.
Proof.
  assert (Hu : 0 <= 0x40490FDB < 0x4F000000) by lia.
  split; [exact Hu | exact (proj1 (floatFloat2Int_sign_flip 0x40490FDB Hu))].
Defined.

(** The truncated magnitude of a normalized pattern as one quotient. *)
Lemma truncated_magnitude_quotient (uf : Z) :
  127 <= IEEE754.exponent_field uf <= 157 ->
  truncated_magnitude uf =
  (IEEE754.fraction_field uf + 2 ^ 23)
  * 2 ^ (IEEE754.exponent_field uf - 127) / 2 ^ 23.
Proof.
  intros HE. destruct (truncated_magnitude_normal uf HE) as [-> _].
  set (E := IEEE754.exponent_field uf) in *.
  set (m := IEEE754.fraction_field uf + 2 ^ 23).
  destruct (Z.ltb_spec 150 E).
  - replace (E - 127) with (E - 150 + 23) by lia.
    rewrite Z.pow_add_r, Z.mul_assoc, Z.div_mul by lia. reflexivity.
  - replace (2 ^ 23) with (2 ^ (150 - E) * 2 ^ (E - 127))
      by (rewrite <- Z.pow_add_r by lia; f_equal; lia).
    rewrite Z.div_mul_cancel_r by lia. reflexivity.
Qed.

(** X15. On nonnegative patterns below [0x4F000000] the order of the
    patterns is the order of the results: [floatFloat2Int] is monotone
    there. *)
Theorem floatFloat2Int_monotone (u v : Z) :
  0 <= u -> u <= v -> v < 0x4F000000 ->
  floatFloat2Int u <= floatFloat2Int v.
Proof.
  intros Hu Huv Hv.
  destruct (fields_sign_set u ltac:(lia)) as (_ & _ & _ & Hsu).
  destruct (fields_sign_set v ltac:(lia)) as (_ & _ & _ & Hsv).
  pose proof (exponent_field_small u ltac:(lia)) as HEu.
  pose proof (exponent_field_small v ltac:(lia)) as HEv.
  assert (Hle : IEEE754.exponent_field u <= IEEE754.exponent_field v).
  { rewrite HEu, HEv. apply Z.div_le_mono; lia. }
  assert (Hv157 : IEEE754.exponent_field v <= 157).
  { rewrite HEv. apply Z.lt_succ_r. apply Z.div_lt_upper_bound; lia. }
  assert (Hnonneg : 0 <= floatFloat2Int v).
  { destruct (floatFloat2Int_cases v) as [[_ ->] | [(_ & -> & Hb) | [H _]]];
      [lia | | lia].
    unfold IEEE754.sign_factor. rewrite Hsv. lia. }
  destruct (floatFloat2Int_cases u) as [[_ ->] | [(H1 & -> & _) | [H1 _]]];
    [exact Hnonneg | | lia].
  destruct (floatFloat2Int_cases v) as [[H2 _] | [(H2 & -> & _) | [H2 _]]];
    [lia | | lia].
  unfold IEEE754.sign_factor. rewrite Hsu, Hsv, !Z.mul_1_l.
  rewrite !truncated_magnitude_quotient by assumption.
  apply Z.div_le_mono; [lia|].
  pose proof (fraction_field_range u) as HFu.
  pose proof (fraction_field_range v) as HFv.
  destruct (Z.eq_dec (IEEE754.exponent_field u) (IEEE754.exponent_field v))
    as [Heq | Hne].
  - rewrite Heq. apply Z.mul_le_mono_nonneg_r; [lia|].
    assert (IEEE754.fraction_field u <= IEEE754.fraction_field v); [|lia].
    unfold IEEE754.fraction_field.
    rewrite (Z.mod_eq u), (Z.mod_eq v) by lia.
    rewrite <- HEu, <- HEv, Heq. lia.
  - set (eu := IEEE754.exponent_field u - 127).
    replace (IEEE754.exponent_field v - 127)
      with (eu + (IEEE754.exponent_field v - IEEE754.exponent_field u))
      by (unfold eu; lia).
    rewrite Z.pow_add_r by (unfold eu; lia).
    assert (Hd : 2 ^ 1 <= 2 ^ (IEEE754.exponent_field v
                                - IEEE754.exponent_field u))
      by (apply Z.pow_le_mono_r; lia).
    assert (Hp : 0 < 2 ^ eu) by (apply Z.pow_pos_nonneg; unfold eu; lia).
    change (2 ^ 1) with 2 in Hd.
    apply Z.le_trans with (2 ^ 24 * 2 ^ eu); [nia|].
    apply Z.le_trans with (2 ^ 23 * (2 ^ eu * 2)); [lia|].
    apply Z.mul_le_mono_nonneg; try lia.
    apply Z.mul_le_mono_nonneg_l; lia.
Qed.

Lemma floatFloat2Int_monotone_witness :
  0 <= 0x3F800000 /\ 0x3F800000 <= 0x40490FDB /\ 0x40490FDB < 0x4F000000 /\
  floatFloat2Int 0x3F800000 <= floatFloat2Int 0x40490FDB.
Proof.
  assert (Hu : 0 <= 0x3F800000) by lia.
  assert (Huv : 0x3F800000 <= 0x40490FDB) by lia.
  assert (Hv : 0x40490FDB < 0x4F000000) by lia.
  split; [exact Hu | split; [exact Huv | split; [exact Hv |]]].
  exact (floatFloat2Int_monotone 0x3F800000 0x40490FDB Hu Huv Hv).
Defined.

(** X16. Integers come back from their encodings: for [2^k <= n < 2^(k+1)]
    with [k <= 23], the pattern with exponent field [k + 127] and fraction
    [(n - 2^k) * 2^(23-k)], which encodes [n] exactly, is mapped to [n]. *)
Theorem floatFloat2Int_round_trip (k n : Z) :
  0 <= k <= 23 -> 2 ^ k <= n < 2 ^ (k + 1) ->
  floatFloat2Int ((k + 127) * 2 ^ 23 + (n - 2 ^ k) * 2 ^ (23 - k)) = n.
Proof.
  intros Hk Hn.
  rewrite Z.add_1_r, Z.pow_succ_r in Hn by lia.
  assert (Hp : 2 ^ k * 2 ^ (23 - k) = 2 ^ 23).
  { rewrite <- Z.pow_add_r by lia. f_equal. lia. }
  assert (Hq : 0 < 2 ^ (23 - k)) by (apply Z.pow_pos_nonneg; lia).
  set (f := (n - 2 ^ k) * 2 ^ (23 - k)).
  assert (Hf : 0 <= f < 2 ^ 23) by (unfold f; nia).
  set (uf := (k + 127) * 2 ^ 23 + f).
  assert (Hdiv : uf / 2 ^ 23 = k + 127).
  { unfold uf. rewrite Z.div_add_l, Z.div_small by lia. lia. }
  assert (HE : IEEE754.exponent_field uf = k + 127).
  { unfold IEEE754.exponent_field. rewrite Hdiv. apply Z.mod_small. lia. }
  assert (HF : IEEE754.fraction_field uf = f).
  { unfold IEEE754.fraction_field, uf.
    rewrite Z.add_comm, Z.mod_add by lia. apply Z.mod_small. exact Hf. }
  assert (Hs : IEEE754.sign_bit uf = false).
  { apply fields_sign_set. unfold uf. lia. }
  destruct (floatFloat2Int_cases uf) as [[H1 _] | [(H1 & -> & _) | [H1 _]]];
    [lia | | lia].
  unfold IEEE754.sign_factor. rewrite Hs, Z.mul_1_l.
  destruct (truncated_magnitude_normal uf H1) as [-> _].
  rewrite HE, HF.
  destruct (Z.ltb_spec 150 (k + 127)); [lia|].
  replace (150 - (k + 127)) with (23 - k) by lia.
  replace (f + 2 ^ 23) with (n * 2 ^ (23 - k)) by (unfold f; lia).
  apply Z.div_mul. lia.
Qed.

Lemma floatFloat2Int_round_trip_witness :
  0 <= 3 <= 23 /\ 2 ^ 3 <= 13 < 2 ^ (3 + 1) /\
  floatFloat2Int ((3 + 127) * 2 ^ 23 + (13 - 2 ^ 3) * 2 ^ (23 - 3)) = 13.
Proof.
  assert (Hk : 0 <= 3 <= 23) by lia.
  assert (Hn : 2 ^ 3 <= 13 < 2 ^ (3 + 1)) by lia.
  split; [exact Hk | split; [exact Hn |]].
  exact (floatFloat2Int_round_trip 3 13 Hk Hn).
Defined.

(** ** [allEvenBits] after a shift *)

(** X17. Composed with a logical shift by one, [allEvenBits] tests the
    odd positions: [allEvenBits (logicalShift x 1)] is 1 exactly when the
    bits 1, 3, ..., 31 of [x] are all set. *)
Theorem allEvenBits_logicalShift (x : Z) :
  Int32.is_int x ->
  allEvenBits (logicalShift x 1) =
  (if forallb (Z.testbit x) (map Z.succ even_positions) then 1 else 0).
Proof.
  intros Hx. rewrite allEvenBits_fold.
  assert (Hb : even_bits_set (logicalShift x 1)
               = forallb (Z.testbit x) (map Z.succ even_positions)).
  { unfold even_bits_set, even_positions, forallb, map.
    rewrite !logicalShift_testbit by (assumption || lia).
    cbn [Z.min Z.compare Pos.compare Pos.compare_cont Z.add Z.succ Pos.add
         Pos.succ Z.ltb andb].
    rewrite !andb_true_r. reflexivity. }
  rewrite Hb. destruct (forallb _ _); reflexivity.
Qed.

Lemma allEvenBits_logicalShift_witness :
  Int32.is_int (-1431655766) /\ allEvenBits (logicalShift (-1431655766) 1) = 1.
Proof.
  assert (Hx : Int32.is_int (-1431655766)) by in_range.
  split; [exact Hx | exact (allEvenBits_logicalShift (-1431655766) Hx)].
Defined.
